(** * osgrep: incremental indexing pipeline

    A shallow embedding of the indexing core of osgrep:

    - [src/utils.ts]: [listStoreFileHashes], [uploadFile], [initialSync];
    - [src/lib/store-helpers.ts]: [GitIgnoreFilter.isIgnored],
      [NodeGit.getGitFiles];
    - the tree-sitter chunker: [TreeSitterChunker.chunk], [getLanguage],
      [downloadFile], [fallbackChunk];
    - the metadata store exercised by [test_metastore.ts].

    The first half of the file holds the definitions, the second half
    the properties proved about them. *)

From stdpp Require Import base option list gmap strings.
From Stdlib Require Import NArith.
From Stdlib.Strings Require Import Byte.
From Stdlib.Strings Require Ascii String.

Set Default Proof Using "Type".

(* ===================================================================== *)
(** * Part I: definitions                                                 *)
(* ===================================================================== *)

(** ** JavaScript values *)

(** A JavaScript string is a sequence of UTF-16 code units. *)
Abbreviation jstring := (list N).

(** ASCII literals. *)
Definition js (s : string) : jstring :=
  Ascii.N_of_ascii <$> String.list_ascii_of_string s.

(** Truthiness of a string: only the empty string is falsy. *)
Definition truthy (s : jstring) : bool :=
  match s with [] => false | _ :: _ => true end.

(** Truthiness of [string | null | undefined]. *)
Definition truthy_opt (o : option jstring) : bool :=
  match o with Some s => truthy s | None => false end.

Definition LF : N := 10.
Definition NUL : N := 0.
Definition SLASH : N := 47.
Definition BACKSLASH : N := 92.
Definition DOT : N := 46.

(** The regular-expression class [\s], which is also the set of code
    units [String.prototype.trim] strips: WhiteSpace and LineTerminator. *)
Definition is_space (c : N) : bool :=
  (bool_decide (c ∈ [9; 10; 11; 12; 13; 32; 160; 5760; 8232; 8233; 8239;
                     8287; 12288; 65279]%N)
   || ((8192 <=? c) && (c <=? 8202)))%N.

Fixpoint drop_while {A} (f : A → bool) (l : list A) : list A :=
  match l with
  | [] => []
  | x :: l' => if f x then drop_while f l' else l
  end.

(** [s.trim()] *)
Definition trim (s : jstring) : jstring :=
  reverse (drop_while is_space (reverse (drop_while is_space s))).

(** [s.split(sep)] for a separator of one code unit.  The result is never
    empty: the empty string splits into one empty piece. *)
Fixpoint split (sep : N) (s : jstring) : list jstring :=
  match s with
  | [] => [[]]
  | c :: s' =>
      if (c =? sep)%N then [] :: split sep s'
      else match split sep s' with
           | [] => [[c]]
           | p :: ps => (c :: p) :: ps
           end
  end.

(** [parts.pop()] on an array: the last element (if any) and the rest. *)
Definition pop {A} (l : list A) : option A * list A :=
  (last l, removelast l).

(** [x || ''], the empty string standing in for a falsy value *)
Definition or_empty (o : option jstring) : jstring :=
  match o with
  | Some s => if truthy s then s else []
  | None => []
  end.

(** [s.includes(t)] *)
Fixpoint is_prefix (t s : jstring) : bool :=
  match t, s with
  | [], _ => true
  | _ :: _, [] => false
  | a :: t', b :: s' => (a =? b)%N && is_prefix t' s'
  end.

Fixpoint includes (t s : jstring) : bool :=
  is_prefix t s ||
  match s with
  | [] => false
  | _ :: s' => includes t s'
  end.

(** Outcome of a call that may throw (or, for an [async] function, of a
    promise that may reject). *)
Inductive result (A : Type) : Type :=
  | Ok (a : A)
  | Throw.
Arguments Ok {A} a.
Arguments Throw {A}.

#[export] Instance result_eq_dec {A} `{EqDecision A} : EqDecision (result A).
Proof. solve_decision. Defined.

#[export] Instance byte_eq_dec : EqDecision byte := Byte.byte_eq_dec.

Definition result_bind {A B} (r : result A) (k : A → result B) : result B :=
  match r with Ok a => k a | Throw => Throw end.

(* ===================================================================== *)
(** ** The chunker ([TreeSitterChunker])                                  *)
(* ===================================================================== *)

Inductive ChunkType := function | class | block | other.

Record Chunk := {
  content : jstring;
  startLine : nat;
  endLine : nat;
  type : ChunkType
}.

(** *** [fallbackChunk] *)

(** The regular expression [\s*\n], matched greedily with backtracking at
    the head of [s]: [\s*] first takes as much as it can and gives code
    units back until a line feed follows.  Returns what is left of [s]. *)
Fixpoint re_ws_star_nl (s : jstring) : option jstring :=
  match s with
  | [] => None
  | c :: s' =>
      if is_space c then
        match re_ws_star_nl s' with
        | Some r => Some r
        | None => if (c =? LF)%N then Some s' else None
        end
      else None
  end.

(** [/\n\s*\n/] anchored at the head of [s]. *)
Definition re_blank_line (s : jstring) : option jstring :=
  match s with
  | c :: s' => if (c =? LF)%N then re_ws_star_nl s' else None
  | [] => None
  end.

(** [content.split(/\n\s*\n/)]: scan for the leftmost match from the
    current position; on a match the piece read so far is emitted and the
    scan resumes after the match; the tail is the last piece.  [fuel]
    bounds the number of scan positions and [length s] is enough. *)
Fixpoint split_re_go (fuel : nat) (acc s : jstring) : list jstring :=
  match fuel with
  | O => [reverse acc ++ s]
  | S fuel' =>
      match s with
      | [] => [reverse acc]
      | c :: s' =>
          match re_blank_line s with
          | Some r => reverse acc :: split_re_go fuel' [] r
          | None => split_re_go fuel' (c :: acc) s'
          end
      end
  end.

Definition split_paragraphs (s : jstring) : list jstring :=
  split_re_go (length s) [] s.

(** One iteration of the [for (const p of paragraphs)] loop over the
    mutable pair [(chunks, lineOffset)]. *)
Definition fallback_step (st : list Chunk * nat) (p : jstring)
  : list Chunk * nat :=
  let '(chunks, lineOffset) := st in
  if negb (truthy (trim p)) then
    (chunks, lineOffset + length (split LF p))
  else
    let numLines := length (split LF p) in
    (chunks ++ [{| content := p;
                   startLine := lineOffset;
                   endLine := lineOffset + numLines;
                   type := block |}],
     lineOffset + numLines).

Definition fallbackChunk (content : jstring) : list Chunk :=
  (foldl fallback_step ([], 0) (split_paragraphs content)).1.


(** *** Grammar acquisition and [chunk] *)

(** A top-level child of [tree.rootNode]. *)
Record SyntaxNode := {
  node_type : jstring;
  text : jstring;
  startPosition_row : nat;
  endPosition_row : nat
}.

(** What [https.get] delivers for a URL: an ['error'] event, or a
    response with its status code and [headers.location]. *)
Inductive HttpResult :=
  | NetError
  | Response (statusCode : nat) (location : option jstring).

(** A settled promise of [void]. *)
Inductive settled := Resolved | Rejected.

Inductive ParserHandle := TheParser.

Definition GRAMMAR_URLS (lang : jstring) : option jstring :=
  if decide (lang = js "typescript") then
    Some (js "https://github.com/tree-sitter/tree-sitter-typescript/releases/download/v0.20.3/tree-sitter-typescript.wasm")
  else if decide (lang = js "tsx") then
    Some (js "https://github.com/tree-sitter/tree-sitter-typescript/releases/download/v0.20.3/tree-sitter-tsx.wasm")
  else if decide (lang = js "python") then
    Some (js "https://github.com/tree-sitter/tree-sitter-python/releases/download/v0.20.4/tree-sitter-python.wasm")
  else None.

Section Chunker.

(** A loaded grammar, opaque to the chunker. *)
Context {Language : Type}.

(** The world around one call of [chunk]: the tree-sitter runtime, the
    grammar cache directory, the network and the parser. *)
Record ChunkerEnv := {
  (** [Parser.init()] resolves and [new Parser()] succeeds *)
  runtime_init : bool;
  (** [GRAMMARS_DIR] exists or [fs.mkdirSync] creates it *)
  grammars_dir_ready : bool;
  (** [os.homedir()] *)
  homedir : jstring;
  (** [path.extname(filePath).toLowerCase()] *)
  file_ext : jstring → jstring;
  (** [fs.existsSync(wasmPath)] *)
  wasm_exists : jstring → bool;
  (** [https.get(url, ...)]; [None] is a request made with an undefined
      URL, as after a redirection without [location] header *)
  https_get : option jstring → HttpResult;
  (** [Parser.Language.load(wasmPath)]; [None] when it throws *)
  language_load : jstring → option Language;
  (** [parser.parse(content).rootNode.children] under a grammar *)
  parse_children : Language → jstring → list SyntaxNode
}.

(** The fields of a [TreeSitterChunker] instance. *)
Record TreeSitterChunker := {
  parser : option ParserHandle;
  languages : gmap jstring Language;
  initialized : bool
}.

Definition new_TreeSitterChunker : TreeSitterChunker :=
  {| parser := None; languages := ∅; initialized := false |}.

Variable env : ChunkerEnv.

(** Methods run over the instance: they return a value or throw, and
    leave the instance as it was at that point. *)
Definition method (A : Type) : Type :=
  TreeSitterChunker → result A * TreeSitterChunker.

Definition init : method unit := λ this,
  if initialized this then (Ok (), this)
  else if negb (runtime_init env) then (Throw, this)
  else
    let this := {| parser := Some TheParser;
                   languages := languages this;
                   initialized := initialized this |} in
    if negb (grammars_dir_ready env) then (Throw, this)
    else (Ok (), {| parser := parser this;
                    languages := languages this;
                    initialized := true |}).

(** [downloadFile(url, dest)].  A 301 or 302 response restarts the
    download at [headers.location]; any other response is piped to the
    file and resolves the promise; an ['error'] event rejects it.  [fuel]
    bounds the number of requests, and [None] is a promise that never
    settles (an endless chain of redirections). *)
Fixpoint downloadFile (fuel : nat) (url : option jstring) (dest : jstring)
  : option settled :=
  match fuel with
  | O => None
  | S fuel' =>
      match https_get env url with
      | NetError => Some Rejected
      | Response statusCode location =>
          if (statusCode =? 302) || (statusCode =? 301)
          then downloadFile fuel' location dest
          else Some Resolved
      end
  end.

Definition grammar_path (lang : jstring) : jstring :=
  homedir env ++ js "/.osgrep/grammars/tree-sitter-" ++ lang ++ js ".wasm".

(** The [try { load } catch { return null }] tail of [getLanguage]. *)
Definition load_language (lang wasmPath : jstring)
  : method (option Language) := λ this,
  match language_load env wasmPath with
  | Some language =>
      (Ok (Some language),
       {| parser := parser this;
          languages := <[lang := language]> (languages this);
          initialized := initialized this |})
  | None => (Ok None, this)
  end.

(** [getLanguage(lang)]: [Ok None] is the [null] result. *)
Definition getLanguage (fuel : nat) (lang : jstring) (this : TreeSitterChunker)
  : option (result (option Language) * TreeSitterChunker) :=
  match languages this !! lang with
  | Some language => Some (Ok (Some language), this)
  | None =>
      let wasmPath := grammar_path lang in
      if negb (wasm_exists env wasmPath) then
        match GRAMMAR_URLS lang with
        | None => Some (Ok None, this)
        | Some url =>
            match downloadFile fuel (Some url) wasmPath with
            | None => None
            | Some Rejected => Some (Throw, this)
            | Some Resolved => Some (load_language lang wasmPath this)
            end
        end
      else Some (load_language lang wasmPath this)
  end.

Definition is_declaration (t : jstring) : bool :=
  bool_decide (t = js "function_declaration")
  || bool_decide (t = js "class_declaration")
  || bool_decide (t = js "method_definition")
  || bool_decide (t = js "function_definition")
  || bool_decide (t = js "class_definition").

(** Body of the loop over [tree.rootNode.children]. *)
Definition visit_child (chunks : list Chunk) (child : SyntaxNode)
  : list Chunk :=
  if is_declaration (node_type child) then
    chunks ++ [{| content := text child;
                  startLine := startPosition_row child;
                  endLine := endPosition_row child;
                  type := if includes (js "class") (node_type child)
                          then class else function |}]
  else if 50 <? length (text child) then
    chunks ++ [{| content := text child;
                  startLine := startPosition_row child;
                  endLine := endPosition_row child;
                  type := other |}]
  else chunks.

Definition language_of_ext (ext : jstring) : jstring :=
  if decide (ext = js ".ts") then js "typescript"
  else if decide (ext = js ".tsx") then js "tsx"
  else if decide (ext = js ".py") then js "python"
  else [].

(** [chunk(filePath, content)].  [None]: the promise never settles. *)
Definition chunk (fuel : nat) (filePath content : jstring)
    (this : TreeSitterChunker)
  : option (result (list Chunk) * TreeSitterChunker) :=
  let '(r, this) := if negb (initialized this) then init this
                    else (Ok (), this) in
  match r with
  | Throw => Some (Throw, this)
  | Ok _ =>
      match parser this with
      | None => Some (Ok (fallbackChunk content), this)
      | Some _ =>
          let ext := file_ext env filePath in
          let lang := language_of_ext ext in
          if negb (truthy lang) then Some (Ok (fallbackChunk content), this)
          else
            match getLanguage fuel lang this with
            | None => None
            | Some (Throw, this) => Some (Throw, this)
            | Some (Ok None, this) =>
                Some (Ok (fallbackChunk content), this)
            | Some (Ok (Some language), this) =>
                let children := parse_children env language content in
                let chunks := foldl visit_child [] children in
                if length chunks =? 0
                then Some (Ok (fallbackChunk content), this)
                else Some (Ok chunks, this)
            end
      end
  end.

End Chunker.

Arguments ChunkerEnv : clear implicits.
Arguments TreeSitterChunker : clear implicits.

(* ===================================================================== *)
(** ** Paths ([node:path], POSIX flavour)                                 *)
(* ===================================================================== *)

(** The non-empty segments of a path. *)
Definition segments (p : jstring) : list jstring :=
  filter (λ s, s ≠ []) (split SLASH p).

Definition isAbsolute (p : jstring) : bool :=
  match p with c :: _ => (c =? SLASH)%N | [] => false end.

Fixpoint join_with (sep : N) (l : list jstring) : jstring :=
  match l with
  | [] => []
  | [s] => s
  | s :: l' => s ++ sep :: join_with sep l'
  end.

(** [normalizeString]: resolve ["."] and [".."] segments; [stack] is the
    resolved prefix, innermost segment first.  A [".."] that would climb
    above the start is kept when [allowAboveRoot] and dropped otherwise. *)
Fixpoint normalize_go (allowAboveRoot : bool) (stack segs : list jstring)
  : list jstring :=
  match segs with
  | [] => reverse stack
  | s :: segs' =>
      if decide (s = js ".") then normalize_go allowAboveRoot stack segs'
      else if decide (s = js "..") then
        match stack with
        | top :: stack' =>
            if decide (top = js "..")
            then normalize_go allowAboveRoot (s :: stack) segs'
            else normalize_go allowAboveRoot stack' segs'
        | [] =>
            if allowAboveRoot
            then normalize_go allowAboveRoot [s] segs'
            else normalize_go allowAboveRoot [] segs'
        end
      else normalize_go allowAboveRoot (s :: stack) segs'
  end.

(** [path.resolve(p)] as the segments below [/]; [cwd] is the absolute
    working directory of the process. *)
Definition path_resolve (cwd p : jstring) : list jstring :=
  if isAbsolute p then normalize_go false [] (segments p)
  else normalize_go false [] (segments cwd ++ segments p).

Fixpoint strip_common (a b : list jstring) : list jstring * list jstring :=
  match a, b with
  | x :: a', y :: b' => if decide (x = y) then strip_common a' b' else (a, b)
  | _, _ => (a, b)
  end.

(** [path.relative(from, to)] *)
Definition path_relative (cwd from to : jstring) : jstring :=
  let '(up, down) := strip_common (path_resolve cwd from) (path_resolve cwd to) in
  join_with SLASH (((λ _, js "..") <$> up) ++ down).

(** [path.join(a, b)] *)
Definition path_join (a b : jstring) : jstring :=
  let joined := if truthy a then if truthy b then a ++ SLASH :: b else a
                else b in
  if negb (truthy joined) then js "."
  else
    let abs := isAbsolute joined in
    let trailing := bool_decide (last joined = Some SLASH) in
    let body := join_with SLASH (normalize_go (negb abs) [] (segments joined)) in
    if negb (truthy body) then
      if abs then js "/" else if trailing then js "./" else js "."
    else (if abs then [SLASH] else []) ++ body ++ (if trailing then [SLASH] else []).

(** [path.basename(p)] *)
Definition path_basename (p : jstring) : jstring :=
  default [] (last (segments p)).

(** [fs.statSync(p)]: throws, or tells what kind of file [p] is. *)
Inductive FileKind := RegularFile | Directory | OtherKind.
Inductive StatResult := StatThrows | Stats (kind : FileKind).

Definition stat_isFile (k : FileKind) : bool :=
  match k with RegularFile => true | _ => false end.
Definition stat_isDirectory (k : FileKind) : bool :=
  match k with Directory => true | _ => false end.

(* ===================================================================== *)
(** ** [GitIgnoreFilter]                                                  *)
(* ===================================================================== *)

(** The pattern engine behind the filter is the [ignore] package, a
    dependency of the repository.  The filter only uses this interface:
    [ignore()], [.add(patterns)] and [.ignores(path)], which answers or
    throws. *)
Class IgnoreEngine (Ig : Type) := {
  ignore : Ig;
  ignore_add : jstring → Ig → Ig;
  ignores : Ig → jstring → result bool
}.

Section GitIgnoreFilter.
Context `{IgnoreEngine Ig}.

Record GitIgnoreFilter := { ignoreInstance : Ig }.

(** [add(patterns)] *)
Definition add (patterns : jstring) (this : GitIgnoreFilter) : GitIgnoreFilter :=
  {| ignoreInstance := ignore_add patterns (ignoreInstance this) |}.

(** [clear()] *)
Definition clear (this : GitIgnoreFilter) : GitIgnoreFilter :=
  {| ignoreInstance := ignore |}.

(** [new GitIgnoreFilter(gitignoreContent?)] *)
Definition new_GitIgnoreFilter (gitignoreContent : option jstring)
  : GitIgnoreFilter :=
  let this := {| ignoreInstance := ignore |} in
  match gitignoreContent with
  | Some c => if truthy c then add c this else this
  | None => this
  end.

(** [relativePath.replace(/\\/g, "/")] *)
Definition replace_backslashes (s : jstring) : jstring :=
  (λ c, if (c =? BACKSLASH)%N then SLASH else c) <$> s.

Definition normalizePathForIgnore (cwd filePath root : jstring) : jstring :=
  replace_backslashes (path_relative cwd root filePath).

(** [isIgnored(filePath, root)]; [statSync] is the file system as the
    call finds it. *)
Definition isIgnored (cwd : jstring) (statSync : jstring → StatResult)
    (this : GitIgnoreFilter) (filePath root : jstring) : result bool :=
  let normalizedPath := normalizePathForIgnore cwd filePath root in
  if negb (truthy normalizedPath) then Ok false
  else
    let isDirectory :=
      match statSync filePath with
      | Stats kind => stat_isDirectory kind
      | StatThrows => false
      end in
    let pathToCheck :=
      if isDirectory then normalizedPath ++ [SLASH] else normalizedPath in
    ignores (ignoreInstance this) pathToCheck.

End GitIgnoreFilter.

Arguments GitIgnoreFilter : clear implicits.

(** *** A reference pattern engine

    A small executable stand-in for the [ignore] package, used to run the
    filter on concrete inputs.  It covers the pattern forms of the
    repository's tests: a name or [*] glob without separator ([*.log]),
    optionally followed by a separator to match directories only
    ([dist/]); blank lines and comments are skipped.  As in the package, a
    path is ignored when the rules match it or one of its parent
    directories, and a path that is empty or not relative to the root
    ([/x], [./x], [../x], [..]) is refused with an exception. *)

Definition STAR : N := 42.
Definition HASH : N := 35.

(** Glob match of one segment; [*] stands for any run of code units. *)
Fixpoint glob (pat : jstring) : jstring → bool :=
  match pat with
  | [] => λ s, bool_decide (s = [])
  | p :: pat' =>
      if (p =? STAR)%N then
        fix star (s : jstring) : bool :=
          glob pat' s || match s with [] => false | _ :: s' => star s' end
      else
        λ s, match s with
             | c :: s' => (c =? p)%N && glob pat' s'
             | [] => false
             end
  end.

Definition ends_with_slash (s : jstring) : bool :=
  bool_decide (last s = Some SLASH).

(** One rule against one path (a directory path ends with a separator). *)
Definition rule_matches (path rule : jstring) : bool :=
  let name := if ends_with_slash rule then removelast rule else rule in
  match last (segments path) with
  | Some seg =>
      glob name seg && (if ends_with_slash rule then ends_with_slash path else true)
  | None => false
  end.

(** The parent directories of a path, outermost first: [a/], [a/b/], ... *)
Fixpoint parent_dirs (pre : jstring) (segs : list jstring) : list jstring :=
  match segs with
  | [] | [_] => []
  | s :: segs' => (pre ++ s ++ [SLASH]) :: parent_dirs (pre ++ s ++ [SLASH]) segs'
  end.

(** The paths [checkPath] refuses: [/^\.*\/|^\.+$/]. *)
Definition not_relative (path : jstring) : bool :=
  match drop_while (λ c, (c =? DOT)%N) path with
  | [] => true
  | c :: _ => (c =? SLASH)%N
  end.

Definition ref_ignores (rules : list jstring) (path : jstring) : result bool :=
  if negb (truthy path) then Throw
  else if not_relative path then Throw
  else Ok (existsb (λ p, existsb (rule_matches p) rules)
                   (parent_dirs [] (segments path) ++ [path])).

Definition ref_add (patterns : jstring) (rules : list jstring) : list jstring :=
  rules ++ filter (λ l, l ≠ [] ∧ head l ≠ Some HASH) (trim <$> split LF patterns).

#[export] Instance RefEngine : IgnoreEngine (list jstring) := {
  ignore := [];
  ignore_add := ref_add;
  ignores := ref_ignores
}.

(* ===================================================================== *)
(** ** [NodeGit.getGitFiles]                                              *)
(* ===================================================================== *)

Abbreviation Buffer := (list byte).

Definition REPLACEMENT : N := 65533.

(** A code point as UTF-16 code units. *)
Definition utf16 (cp : N) : jstring :=
  (if cp <? 65536 then [cp]
   else [55296 + (cp - 65536) / 1024; 56320 + (cp - 65536) mod 1024])%N.

(** A UTF-8 sequence under way: the bits read so far, the number of
    continuation bytes still due and the range allowed for the next. *)
Record Utf8Pending := {
  code_point : N;
  bytes_needed : nat;
  lower : N;
  upper : N
}.

(** A byte met outside a sequence: the code units it yields at once and
    the sequence it opens, if any. *)
Definition utf8_lead (b : N) : jstring * option Utf8Pending :=
  (if b <=? 127 then ([b], None)
   else if (194 <=? b) && (b <=? 223) then
     ([], Some {| code_point := N.land b 31; bytes_needed := 1;
                  lower := 128; upper := 191 |})
   else if (224 <=? b) && (b <=? 239) then
     ([], Some {| code_point := N.land b 15; bytes_needed := 2;
                  lower := if b =? 224 then 160 else 128;
                  upper := if b =? 237 then 159 else 191 |})
   else if (240 <=? b) && (b <=? 244) then
     ([], Some {| code_point := N.land b 7; bytes_needed := 3;
                  lower := if b =? 240 then 144 else 128;
                  upper := if b =? 244 then 143 else 191 |})
   else ([REPLACEMENT], None))%N.

(** UTF-8 decoding with replacement: a byte that cannot start or continue
    a sequence, and a sequence cut short by the end of the input, each
    yield U+FFFD. *)
Fixpoint utf8_decode (pending : option Utf8Pending) (bs : list N) : jstring :=
  match bs with
  | [] => match pending with Some _ => [REPLACEMENT] | None => [] end
  | b :: bs' =>
      match pending with
      | None => let '(out, st) := utf8_lead b in out ++ utf8_decode st bs'
      | Some p =>
          if ((lower p <=? b) && (b <=? upper p))%N then
            let cp := (code_point p * 64 + N.land b 63)%N in
            match bytes_needed p with
            | S (S n) =>
                utf8_decode (Some {| code_point := cp; bytes_needed := S n;
                                     lower := 128; upper := 191 |}) bs'
            | _ => utf16 cp ++ utf8_decode None bs'
            end
          else
            let '(out, st) := utf8_lead b in
            REPLACEMENT :: out ++ utf8_decode st bs'
      end
  end.

(** [chunk.toString()] on a [Buffer]: each chunk is decoded on its own. *)
Definition Buffer_toString (chunk : Buffer) : jstring :=
  utf8_decode None (Byte.to_N <$> chunk).

(** What the child process does as seen by the generator: the chunks its
    [stdout] delivers, in order, and the events it emits once the
    listeners of the final [await] are attached. *)
Inductive ChildEvent := ExitEvent | ErrorEvent | OtherEvent.

Record ChildProcess := {
  stdout : list Buffer;
  late_events : list ChildEvent
}.

(** Body of [for await (const chunk of child.stdout)] over the pair of
    the mutable [buffer] and the paths yielded so far. *)
Definition getGitFiles_step (dirRoot : jstring)
    (st : jstring * list jstring) (chunk : Buffer) : jstring * list jstring :=
  let '(buffer, yielded) := st in
  let buffer := buffer ++ Buffer_toString chunk in
  let '(lastPart, parts) := pop (split NUL buffer) in
  let buffer := or_empty lastPart in
  (buffer, yielded ++ (path_join dirRoot <$> filter (λ f, truthy f = true) parts)).

Definition resolves_wait (e : ChildEvent) : bool :=
  match e with ExitEvent | ErrorEvent => true | OtherEvent => false end.

(** [getGitFiles(dirRoot)]: the paths yielded, in order, and whether the
    generator completes (the promise awaited last resolves). *)
Definition getGitFiles (dirRoot : jstring) (child : ChildProcess)
  : list jstring * bool :=
  let '(buffer, yielded) := foldl (getGitFiles_step dirRoot) ([], []) (stdout child) in
  let yielded := if truthy buffer then yielded ++ [path_join dirRoot buffer]
                 else yielded in
  (yielded, existsb resolves_wait (late_events child)).


(* ===================================================================== *)
(** ** The sync engine ([utils.ts])                                       *)
(* ===================================================================== *)

(** A JSON value as far as the code looks at it ([typeof v === "string"]). *)
Inductive jsval :=
  | VUndefined
  | VNull
  | VBool (b : bool)
  | VNumber (n : Z)
  | VString (s : jstring).

(** The metadata of a stored file, read as [FileMetadata]. *)
Record FileMetadata := {
  meta_path : jsval;
  meta_hash : jsval
}.

(** One entry of a listing page; [None] stands for [null] or [undefined]. *)
Record StoreFile := {
  external_id : option jstring;
  metadata : option FileMetadata
}.

Record Pagination := {
  has_more : bool;
  last_cursor : option jstring
}.

Record ListResponse := {
  data : list StoreFile;
  pagination : option Pagination
}.

(** The content handed to [stores.files.upload]. *)
Inductive UploadBody :=
  | ReadStream (filePath : jstring)
  | FileObject (buffer : Buffer) (fileName : jstring).

Record UploadOptions := {
  opt_external_id : jstring;
  opt_overwrite : bool;
  opt_metadata_path : jstring;
  opt_metadata_hash : jstring
}.

(** The client of the remote store.  [W] is the state of the world behind
    it (the store and the network).  Listing reads that state; an upload
    may change it, whether the call resolves ([true]) or rejects. *)
Record Mixedbread (W : Type) := {
  files_list : W → jstring → nat → option jstring → result ListResponse;
  files_upload : W → jstring → UploadBody → UploadOptions → bool * W
}.
Arguments files_list {W}.
Arguments files_upload {W}.

(** The local machine during one run: [git], [fs.statSync] and
    [fs.promises.readFile]. *)
Record RepoEnv := {
  (** [spawnSync("git", ["ls-files", "-z"]).stdout]; [None] on [res.error] *)
  git_ls_tracked : option jstring;
  (** the same with [--others --exclude-standard] *)
  git_ls_untracked : option jstring;
  (** [git check-ignore -q -- filePath] exits with status 0 *)
  git_check_ignore : jstring → bool;
  statSync : jstring → StatResult;
  readFile : jstring → result Buffer
}.

(** [Array.from(new Set(l))]: first occurrences, in order. *)
Fixpoint dedupe (seen l : list jstring) : list jstring :=
  match l with
  | [] => []
  | x :: l' =>
      if decide (x ∈ seen) then dedupe seen l'
      else x :: dedupe (x :: seen) l'
  end.

Definition getGitRepoFiles (env : RepoEnv) (repoRoot : jstring) : list jstring :=
  let run (out : option jstring) := default [] out in
  let tracked := filter (λ f, truthy f = true) (split NUL (run (git_ls_tracked env))) in
  let untracked := filter (λ f, truthy f = true) (split NUL (run (git_ls_untracked env))) in
  let allRel := dedupe [] (tracked ++ untracked) in
  path_join repoRoot <$> allRel.

Definition isIgnoredByGit (env : RepoEnv) (filePath : jstring) : bool :=
  git_check_ignore env filePath.

Definition keep_repo_file (env : RepoEnv) (filePath : jstring) : bool :=
  match statSync env filePath with
  | StatThrows => false
  | Stats kind =>
      if negb (stat_isFile kind) then false
      else negb (isIgnoredByGit env filePath)
  end.

Definition filterRepoFiles (env : RepoEnv) (files : list jstring) : list jstring :=
  filter (λ f, keep_repo_file env f = true) files.

(** Progress as passed to [onProgress], and the aggregate returned. *)
Record SyncProgress := {
  processed : nat;
  uploaded : nat;
  total : nat;
  filePath : option jstring
}.

Section Sync.
Context {W : Type}.

(** [computeBufferHash]: the SHA-256 digest in hexadecimal. *)
Variable computeBufferHash : Buffer → jstring.
Variable client : Mixedbread W.

(** [typeof metadata?.hash === "string" ? metadata.hash : undefined], with
    [metadata = f.metadata || {}] *)
Definition entry_hash (f : StoreFile) : option jstring :=
  match metadata f with
  | Some m => match meta_hash m with
              | VString h => Some h
              | _ => None
              end
  | None => None
  end.

(** Body of [for (const f of resp.data)] over [byExternalId]. *)
Definition record_file (byExternalId : gmap jstring (option jstring))
    (f : StoreFile) : gmap jstring (option jstring) :=
  match external_id f with
  | None => byExternalId
  | Some externalId =>
      if negb (truthy externalId) then byExternalId
      else <[externalId := entry_hash f]> byExternalId
  end.

(** The value [after] takes at the end of an iteration. *)
Definition next_after (resp : ListResponse) : option jstring :=
  match pagination resp with
  | Some p => if has_more p then last_cursor p else None
  | None => None
  end.

(** The [do ... while (after)] loop of [listStoreFileHashes].  [None]:
    the loop is still running when [fuel] requests have been made. *)
Fixpoint listStoreFileHashes_loop (fuel : nat) (w : W) (store : jstring)
    (byExternalId : gmap jstring (option jstring)) (after : option jstring)
  : option (result (gmap jstring (option jstring))) :=
  match fuel with
  | O => None
  | S fuel' =>
      match files_list client w store 100 after with
      | Throw => Some Throw
      | Ok resp =>
          let byExternalId := foldl record_file byExternalId (data resp) in
          let after := next_after resp in
          if truthy_opt after
          then listStoreFileHashes_loop fuel' w store byExternalId after
          else Some (Ok byExternalId)
      end
  end.

Definition listStoreFileHashes (fuel : nat) (w : W) (store : jstring)
  : option (result (gmap jstring (option jstring))) :=
  listStoreFileHashes_loop fuel w store ∅ None.

(** The requests the loop makes: each [after] sent, with the page
    received.  (An observer of the loop, not part of its result.) *)
Fixpoint list_requests (fuel : nat) (w : W) (store : jstring)
    (after : option jstring) : list (option jstring * result ListResponse) :=
  match fuel with
  | O => []
  | S fuel' =>
      match files_list client w store 100 after with
      | Throw => [(after, Throw)]
      | Ok resp =>
          (after, Ok resp) ::
          (if truthy_opt (next_after resp)
           then list_requests fuel' w store (next_after resp)
           else [])
      end
  end.

(** The world together with the calls made to [stores.files.upload] so
    far, oldest first. *)
Record UploadCall := {
  call_body : UploadBody;
  call_options : UploadOptions;
  call_resolved : bool
}.

Record Net := {
  world : W;
  calls : list UploadCall
}.

(** [await client.stores.files.upload(store, body, options)] *)
Definition upload (store : jstring) (body : UploadBody) (options : UploadOptions)
    (n : Net) : bool * Net :=
  let '(ok, w) := files_upload client (world n) store body options in
  (ok, {| world := w;
          calls := calls n ++ [{| call_body := body; call_options := options;
                                  call_resolved := ok |}] |}).

(** [uploadFile(client, store, filePath, fileName)] *)
Definition uploadFile (env : RepoEnv) (store filePath fileName : jstring)
    (n : Net) : result bool * Net :=
  match readFile env filePath with
  | Throw => (Throw, n)
  | Ok buffer =>
      if length buffer =? 0 then (Ok false, n)
      else
        let hash := computeBufferHash buffer in
        let options := {| opt_external_id := filePath;
                          opt_overwrite := true;
                          opt_metadata_path := filePath;
                          opt_metadata_hash := hash |} in
        match upload store (ReadStream filePath) options n with
        | (true, n) => (Ok true, n)
        | (false, n) =>
            match upload store (FileObject buffer fileName) options n with
            | (true, n) => (Ok true, n)
            | (false, n) => (Throw, n)
            end
        end
  end.

(** The state the per-file jobs of [initialSync] share: the world, the two
    counters, and the calls made to [onProgress], oldest first. *)
Record SyncState := {
  net : Net;
  st_processed : nat;
  st_uploaded : nat;
  progress : list SyncProgress
}.

(** [onProgress?.({ processed, uploaded, total, filePath })] *)
Definition report (total : nat) (path : jstring) (st : SyncState) : SyncState :=
  {| net := net st;
     st_processed := st_processed st;
     st_uploaded := st_uploaded st;
     progress := progress st ++
       [{| processed := st_processed st; uploaded := st_uploaded st;
           total := total; filePath := Some path |}] |}.

(** [!existingHash || existingHash !== hash] *)
Definition needs_upload (existingHash : option jstring) (hash : jstring) : bool :=
  negb (truthy_opt existingHash) || negb (bool_decide (existingHash = Some hash)).

(** The job run for one file: the body of the [try], and the [catch]
    that reports progress from wherever the body stopped. *)
Definition sync_file (env : RepoEnv) (store : jstring)
    (storeHashes : gmap jstring (option jstring)) (total : nat)
    (st : SyncState) (path : jstring) : SyncState :=
  match readFile env path with
  | Throw => report total path st
  | Ok buffer =>
      let hash := computeBufferHash buffer in
      let existingHash := mjoin (storeHashes !! path) in
      let st := {| net := net st;
                   st_processed := st_processed st + 1;
                   st_uploaded := st_uploaded st;
                   progress := progress st |} in
      if needs_upload existingHash hash then
        match uploadFile env store path (path_basename path) (net st) with
        | (Throw, n) =>
            report total path
              {| net := n; st_processed := st_processed st;
                 st_uploaded := st_uploaded st; progress := progress st |}
        | (Ok didUpload, n) =>
            report total path
              {| net := n; st_processed := st_processed st;
                 st_uploaded := if didUpload then st_uploaded st + 1
                                else st_uploaded st;
                 progress := progress st |}
        end
      else report total path st
  end.

(** [initialSync(client, store, repoRoot, onProgress)].  Each job works
    on its own file and makes its own upload calls; the jobs share the
    two counters only.  Here they run to completion one after the other,
    in the order of [repoFiles].  Result: [None] if the listing never
    ends, [Some Throw] if it rejects, else the aggregate with the final
    state. *)
Definition initialSync (fuel : nat) (env : RepoEnv) (store repoRoot : jstring)
    (w : W) : option (result (SyncProgress * SyncState)) :=
  match listStoreFileHashes fuel w store with
  | None => None
  | Some Throw => Some Throw
  | Some (Ok storeHashes) =>
      let repoFiles := filterRepoFiles env (getGitRepoFiles env repoRoot) in
      let total := length repoFiles in
      let st := foldl (sync_file env store storeHashes total)
                  {| net := {| world := w; calls := [] |};
                     st_processed := 0; st_uploaded := 0; progress := [] |}
                  repoFiles in
      Some (Ok ({| processed := st_processed st; uploaded := st_uploaded st;
                   total := total; filePath := None |}, st))
  end.

End Sync.

Arguments SyncState : clear implicits.
Arguments Net : clear implicits.

(* ===================================================================== *)
(** ** The metadata store ([MetaStore])                                   *)
(* ===================================================================== *)

(** The two files of the store: [~/.osgrep/meta.json] and its staging
    sibling [meta.json.tmp]; [None] is a file that does not exist. *)
Record Disk := {
  metaFile : option jstring;
  tmpFile : option jstring
}.

Section MetaStore.

(** [JSON.parse] restricted to documents of the form [{key: hash}]
    ([None] when it throws), and [JSON.stringify] on such a mapping. *)
Variable JSON_parse : jstring → option (gmap jstring jstring).
Variable JSON_stringify : gmap jstring jstring → jstring.

(** Modelled from the spec: the [MetaStore] class, which the test imports
    from [src/utils] but whose code is not part of the sources at hand.
    An in-memory mapping from key to hash with [get], [set], [load] and
    [save]. *)
Record MetaStore := { store_data : gmap jstring jstring }.

(** Modelled from the spec: the constructor of [MetaStore], an empty
    mapping. *)
Definition new_MetaStore : MetaStore := {| store_data := ∅ |}.

(** Modelled from the spec: [MetaStore.get(key)]. *)
Definition get (key : jstring) (this : MetaStore) : option jstring :=
  store_data this !! key.

(** Modelled from the spec: [MetaStore.set(key, hash)]. *)
Definition set (key hash : jstring) (this : MetaStore) : MetaStore :=
  {| store_data := <[key := hash]> (store_data this) |}.

(** Modelled from the spec: [MetaStore.save()], which writes the whole
    serialized mapping to the staging file and then renames the staging
    file over the primary one. *)
Definition save (this : MetaStore) (d : Disk) : Disk :=
  let written := {| metaFile := metaFile d;
                    tmpFile := Some (JSON_stringify (store_data this)) |} in
  {| metaFile := tmpFile written; tmpFile := None |}.

(** Modelled from the spec: reading and parsing one of the two files;
    [None] when the file is missing or its content does not parse. *)
Definition read_document (file : option jstring) : option (gmap jstring jstring) :=
  file ≫= JSON_parse.

(** Modelled from the spec: [MetaStore.load()].  The primary file is
    parsed; if that fails the staging file is parsed instead, taken as
    authoritative and saved back to the primary location; if both fail
    the store starts from the empty mapping. *)
Definition load (this : MetaStore) (d : Disk) : MetaStore * Disk :=
  match read_document (metaFile d) with
  | Some m => ({| store_data := m |}, d)
  | None =>
      match read_document (tmpFile d) with
      | Some m =>
          let this := {| store_data := m |} in
          (this, save this d)
      | None => ({| store_data := ∅ |}, d)
      end
  end.

End MetaStore.

(** *** A reader and writer for flat JSON objects

    An executable instance of the two JSON functions for documents whose
    keys and values are strings free of quotes, backslashes and control
    characters: [{"k1":"v1","k2":"v2"}], with optional blanks between
    tokens. *)

Definition QUOTE : N := 34.
Definition LBRACE : N := 123.
Definition RBRACE : N := 125.
Definition COLON : N := 58.
Definition COMMA : N := 44.

Definition skip_ws (s : jstring) : jstring :=
  drop_while (λ c, bool_decide (c ∈ [9; 10; 13; 32]%N)) s.

(** A string literal at the head of [s] (after its opening quote):
    the characters up to the closing quote, and what follows it. *)
Fixpoint json_string_body (s : jstring) : option (jstring * jstring) :=
  match s with
  | [] => None
  | c :: s' =>
      if (c =? QUOTE)%N then Some ([], s')
      else if (c =? BACKSLASH)%N || (c <? 32)%N then None
      else '(str, rest) ← json_string_body s'; Some (c :: str, rest)
  end.

Definition json_string (s : jstring) : option (jstring * jstring) :=
  match skip_ws s with
  | c :: s' => if (c =? QUOTE)%N then json_string_body s' else None
  | [] => None
  end.

Definition json_expect (c : N) (s : jstring) : option jstring :=
  match skip_ws s with
  | c' :: s' => if (c' =? c)%N then Some s' else None
  | [] => None
  end.

(** The members of an object after its first one: [,"k":"v"] repeated,
    up to the closing brace.  [fuel] bounds the number of members. *)
Fixpoint json_members (fuel : nat) (acc : gmap jstring jstring) (s : jstring)
  : option (gmap jstring jstring * jstring) :=
  match fuel with
  | O => None
  | S fuel' =>
      match skip_ws s with
      | c :: s' =>
          if (c =? RBRACE)%N then Some (acc, s')
          else if (c =? COMMA)%N then
            '(k, s1) ← json_string s';
            s2 ← json_expect COLON s1;
            '(v, s3) ← json_string s2;
            json_members fuel' (<[k := v]> acc) s3
          else None
      | [] => None
      end
  end.

Definition flat_json_parse (s : jstring) : option (gmap jstring jstring) :=
  s0 ← json_expect LBRACE s;
  '(m, rest) ←
    match skip_ws s0 with
    | c :: s' =>
        if (c =? RBRACE)%N then Some (∅, s')
        else
          '(k, s1) ← json_string s0;
          s2 ← json_expect COLON s1;
          '(v, s3) ← json_string s2;
          json_members (length s) {[k := v]} s3
    | [] => None
    end;
  match skip_ws rest with [] => Some m | _ :: _ => None end.

Definition json_quote (s : jstring) : jstring := QUOTE :: s ++ [QUOTE].

Definition flat_json_stringify (m : gmap jstring jstring) : jstring :=
  LBRACE ::
  join_with COMMA ((λ kv, json_quote kv.1 ++ COLON :: json_quote kv.2) <$> map_to_list m)
  ++ [RBRACE].

(** The double quote, as a literal. *)
Definition DQ : string := String.String (Ascii.ascii_of_nat 34) String.EmptyString.


(* ===================================================================== *)
(** ** Descriptions the code is compared with                             *)
(* ===================================================================== *)

(** *** The paragraph splitter, as the design describes it *)

(** A paragraph is blank when it holds nothing but white space. *)
Definition blank (p : jstring) : bool := forallb is_space p.

(** The number of lines of a paragraph: one more than its line feeds. *)
Definition line_count (p : jstring) : nat :=
  S (length (filter (λ c, c = LF) p)).

(** One [block] chunk per paragraph that is not blank, from the running
    line offset [offset] to that offset plus the paragraph's line count;
    every paragraph, blank or not, advances the offset by its line
    count. *)
Fixpoint paragraph_chunks (offset : nat) (ps : list jstring) : list Chunk :=
  match ps with
  | [] => []
  | p :: ps' =>
      if blank p then paragraph_chunks (offset + line_count p) ps'
      else {| content := p; startLine := offset;
              endLine := offset + line_count p; type := block |}
           :: paragraph_chunks (offset + line_count p) ps'
  end.

(** A blank-line boundary: a line feed, white space, a line feed. *)
Definition blank_line_boundary (sep : jstring) : Prop :=
  ∃ mid, sep = LF :: mid ++ [LF] ∧ forallb is_space mid = true.

(** The boundary before [rest] could reach further: [rest] begins with
    white space up to another line feed. *)
Definition boundary_extends (rest : jstring) : Prop :=
  ∃ mid r, rest = mid ++ LF :: r ∧ forallb is_space mid = true.

(** [paragraphs_of s ps]: [s] is the paragraphs [ps], in order, with a
    blank-line boundary between two neighbours, each boundary reaching as
    far as it can. *)
Inductive paragraphs_of : jstring → list jstring → Prop :=
  | paragraphs_last p :
      paragraphs_of p [p]
  | paragraphs_cons p sep rest ps :
      blank_line_boundary sep →
      ¬ boundary_extends rest →
      paragraphs_of rest ps →
      paragraphs_of (p ++ sep ++ rest) (p :: ps).


Section ChunkerCases.
Context {Language : Type} (env : ChunkerEnv Language).

(** The tree-sitter runtime is usable: set up by an earlier call, or
    ready to be set up by this one. *)
Definition runtime_ready (this : TreeSitterChunker Language) : Prop :=
  initialized this = true ∨
  (runtime_init env = true ∧ grammars_dir_ready env = true).

(** The instance as [chunk] finds it after [if (!this.initialized) await
    this.init()]. *)
Definition after_init (this : TreeSitterChunker Language)
  : TreeSitterChunker Language :=
  if initialized this then this else (init env this).2.

(** A top-level node that yields no chunk: neither a declaration nor
    longer than 50 code units. *)
Definition yields_no_chunk (child : SyntaxNode) : Prop :=
  is_declaration (node_type child) = false ∧ length (text child) ≤ 50.

(** No grammar applies to the file, or the syntax-tree pass finds no
    chunk: the instance has no parser; the extension is none of [.ts],
    [.tsx], [.py]; [getLanguage] answers [null]; or no top-level node of
    the parse yields a chunk. *)
Definition no_grammar_or_no_chunks (fuel : nat) (filePath content : jstring)
    (this : TreeSitterChunker Language) : Prop :=
  let lang := language_of_ext (file_ext env filePath) in
  parser (after_init this) = None
  ∨ lang = []
  ∨ (∃ this', getLanguage env fuel lang (after_init this) = Some (Ok None, this'))
  ∨ (∃ language this',
       getLanguage env fuel lang (after_init this) = Some (Ok (Some language), this')
       ∧ Forall yields_no_chunk (parse_children env language content)).

End ChunkerCases.

(** *** The remote listing, as the design describes it *)

Section ListingRun.
Context {W : Type} (client : Mixedbread W) (w : W) (store : jstring).

(** [listing_run after pages]: starting with the request for [after],
    [pages] are the pages received when each next request carries the
    cursor of the page before it, up to and including the first page
    after which no request follows: a page that reports no further pages,
    or one that reports more but carries no usable cursor. *)
Inductive listing_run : option jstring → list ListResponse → Prop :=
  | listing_stop after resp :
      files_list client w store 100 after = Ok resp →
      truthy_opt (next_after resp) = false →
      listing_run after [resp]
  | listing_more after resp pages :
      files_list client w store 100 after = Ok resp →
      truthy_opt (next_after resp) = true →
      listing_run (next_after resp) pages →
      listing_run after (resp :: pages).

End ListingRun.

(** What a listing records for an identifier: nothing for the empty
    identifier or one that no entry carries; otherwise the hash of the
    last entry listed under it. *)
Definition listed_hash (entries : list StoreFile) (id : jstring)
  : option (option jstring) :=
  if truthy id
  then entry_hash <$> last (filter (λ f, external_id f = Some id) entries)
  else None.

(** *** Runs of the sync engine *)

Definition is_fallback_upload (c : UploadCall) : bool :=
  match call_body c with FileObject _ _ => true | ReadStream _ => false end.

(** No upload was given up: every buffered upload, the second and last
    attempt for a file, resolved. *)
Definition fully_uploaded (calls : list UploadCall) : Prop :=
  Forall (λ c, is_fallback_upload c = true → call_resolved c = true) calls.

Section SyncCases.
Variable computeBufferHash : Buffer → jstring.

(** The file is sent by a run that lists [storeHashes]: it can be read,
    is not empty, and its hash is not the one listed for its path. *)
Definition to_upload (env : RepoEnv)
    (storeHashes : gmap jstring (option jstring)) (path : jstring) : bool :=
  match readFile env path with
  | Throw => false
  | Ok buffer =>
      negb (length buffer =? 0)
      && needs_upload (mjoin (storeHashes !! path)) (computeBufferHash buffer)
  end.

(** The upload call carries the path and the hash. *)
Definition call_for (path hash : jstring) (c : UploadCall) : Prop :=
  opt_external_id (call_options c) = path
  ∧ opt_metadata_hash (call_options c) = hash.

Definition readable (env : RepoEnv) (path : jstring) : bool :=
  match readFile env path with Ok _ => true | Throw => false end.

(** After a run that listed [before] and made [calls], the listing
    [after] shows what the store was sent: the hash of every upload that
    resolved, and for a candidate path without such an upload what was
    listed before. *)
Definition store_reflects (before after : gmap jstring (option jstring))
    (calls : list UploadCall) (files : list jstring) : Prop :=
  Forall (λ c, call_resolved c = true →
               after !! opt_external_id (call_options c)
               = Some (Some (opt_metadata_hash (call_options c)))) calls
  ∧ Forall (λ path,
        Forall (λ c, opt_external_id (call_options c) = path →
                     call_resolved c = false) calls →
        after !! path = before !! path) files.

(** The content of the file differs between the two runs and is not
    empty at the second. *)
Definition changed_nonempty (env1 env2 : RepoEnv) (path : jstring) : bool :=
  match readFile env2 path with
  | Throw => false
  | Ok b2 => negb (length b2 =? 0) && negb (bool_decide (readFile env1 path = Ok b2))
  end.


End SyncCases.

(** The candidate files of a run. *)
Definition candidates (env : RepoEnv) (repoRoot : jstring) : list jstring :=
  filterRepoFiles env (getGitRepoFiles env repoRoot).

(** *** Paths outside the root *)

(** The answer of the file system probe as [isIgnored] reads it: a
    directory or not, a failed probe counting as not. *)
Definition probes_as_directory (statSync : jstring → StatResult)
    (filePath : jstring) : bool :=
  match statSync filePath with
  | Stats kind => stat_isDirectory kind
  | StatThrows => false
  end.

(** Going from [root] to [filePath] starts by leaving [root]: some
    segment of the resolved root is not shared by the resolved path. *)
Definition outside_root (cwd root filePath : jstring) : Prop :=
  (strip_common (path_resolve cwd root) (path_resolve cwd filePath)).1 ≠ [].

(** *** Listings of plain ASCII names *)

Definition ascii_only (b : Buffer) : Prop :=
  Forall (λ x, (Byte.to_N x < 128)%N) b.

(* ===================================================================== *)
(** ** Concrete scenarios                                                 *)
(* ===================================================================== *)

(** An instance of the extension oracle: the lower-cased suffix of the
    base name from its last dot on. *)
Fixpoint from_last_dot (s : jstring) : option jstring :=
  match s with
  | [] => None
  | c :: s' =>
      match from_last_dot s' with
      | Some e => Some e
      | None => if (c =? DOT)%N then Some s else None
      end
  end.

Definition ascii_lower (c : N) : N :=
  (if (65 <=? c) && (c <=? 90) then c + 32 else c)%N.

Definition simple_ext (p : jstring) : jstring :=
  ascii_lower <$> default [] (from_last_dot (path_basename p)).

(** A reference remote store: the entries it holds, as external
    identifier and hash in listing order; the most entries it puts on one
    page; and the number of upload requests the network will still refuse
    before it is back.  A page's cursor is the identifier of its last
    entry, and an upload replaces the entry of the same identifier or
    adds one. *)
Record Remote := {
  stored : list (jstring * jstring);
  page_size : nat;
  outage : nat
}.

Definition as_entry (kv : jstring * jstring) : StoreFile :=
  {| external_id := Some kv.1;
     metadata := Some {| meta_path := VString kv.1; meta_hash := VString kv.2 |} |}.

Fixpoint entries_after (cursor : jstring) (l : list (jstring * jstring))
  : list (jstring * jstring) :=
  match l with
  | [] => []
  | kv :: l' => if decide (kv.1 = cursor) then l' else entries_after cursor l'
  end.

Definition ref_list (w : Remote) (store : jstring) (limit : nat)
    (after : option jstring) : result ListResponse :=
  let rest := match after with
              | Some c => entries_after c (stored w)
              | None => stored w
              end in
  let n := limit `min` page_size w in
  let page := take n rest in
  Ok {| data := as_entry <$> page;
        pagination := Some {| has_more := negb (length rest <=? n);
                              last_cursor := fst <$> last page |} |}.

Fixpoint upsert (id h : jstring) (l : list (jstring * jstring))
  : list (jstring * jstring) :=
  match l with
  | [] => [(id, h)]
  | kv :: l' => if decide (kv.1 = id) then (id, h) :: l' else kv :: upsert id h l'
  end.

Definition ref_upload (w : Remote) (store : jstring) (body : UploadBody)
    (options : UploadOptions) : bool * Remote :=
  match outage w with
  | S n => (false, {| stored := stored w; page_size := page_size w; outage := n |})
  | O => (true, {| stored := upsert (opt_external_id options)
                               (opt_metadata_hash options) (stored w);
                   page_size := page_size w; outage := 0 |})
  end.

Definition ref_client : Mixedbread Remote :=
  {| files_list := ref_list; files_upload := ref_upload |}.

Definition empty_remote : Remote :=
  {| stored := []; page_size := 100; outage := 0 |}.

(** The store once it holds [a.txt] with the content [hi]. *)
Definition synced_remote : Remote :=
  {| stored := [(js "/repo/a.txt", js "sha:hi")]; page_size := 100; outage := 0 |}.

(** The same store behind a network that refuses the next two uploads. *)
Definition flaky_remote : Remote :=
  {| stored := []; page_size := 100; outage := 2 |}.

Definition store_name : jstring := js "osgrep".
Definition repo_root : jstring := js "/repo".

(** Two file contents: [hi] and [hi!]. *)
Definition hi : Buffer := [x68; x69].

(** A store whose first page announces more entries without giving a
    cursor. *)
Definition cursorless_page : ListResponse :=
  {| data := [as_entry (js "/repo/a.txt", js "h1")];
     pagination := Some {| has_more := true; last_cursor := None |} |}.

Definition cursorless_client : Mixedbread unit :=
  {| files_list := λ _ _ _ _, Ok cursorless_page;
     files_upload := λ w _ _ _, (true, w) |}.

(** A stand-in for the digest: injective and never empty. *)
Definition toy_hash (b : Buffer) : jstring := js "sha:" ++ (Byte.to_N <$> b).

(** A repository at [/repo] with the tracked files [a.txt] and [b.txt],
    whose reads give [a] and [b]. *)
Definition two_files (a b : result Buffer) : RepoEnv := {|
  git_ls_tracked := Some (js "a.txt" ++ [NUL] ++ js "b.txt" ++ [NUL]);
  git_ls_untracked := Some [];
  git_check_ignore := λ _, false;
  statSync := λ _, Stats RegularFile;
  readFile := λ p, if decide (p = js "/repo/a.txt") then a
                   else if decide (p = js "/repo/b.txt") then b
                   else Throw
|}.

(** The same with [a.txt] alone. *)
Definition one_file (a : result Buffer) : RepoEnv := {|
  git_ls_tracked := Some (js "a.txt" ++ [NUL]);
  git_ls_untracked := Some [];
  git_check_ignore := λ _, false;
  statSync := λ _, Stats RegularFile;
  readFile := λ p, if decide (p = js "/repo/a.txt") then a else Throw
|}.

(** A store of three entries that lists two entries per page. *)
Definition paged_remote : Remote :=
  {| stored := [(js "/repo/a.txt", js "h1"); (js "/repo/b.txt", js "h2");
                (js "/repo/c.txt", js "h3")];
     page_size := 2; outage := 0 |}.

Definition paged_listing : list ListResponse :=
  [ {| data := as_entry <$> [(js "/repo/a.txt", js "h1"); (js "/repo/b.txt", js "h2")];
       pagination := Some {| has_more := true;
                             last_cursor := Some (js "/repo/b.txt") |} |};
    {| data := as_entry <$> [(js "/repo/c.txt", js "h3")];
       pagination := Some {| has_more := false;
                             last_cursor := Some (js "/repo/c.txt") |} |} ].

(** The documents of the recovery test: a torn primary file and a staging
    file holding one record. *)
Definition recovered_document : jstring :=
  js ("{" +:+ DQ +:+ "recovered-file" +:+ DQ +:+ ":" +:+ DQ +:+ "recovered-hash"
      +:+ DQ +:+ "}").

Definition torn_disk : Disk :=
  {| metaFile := Some (js "corrupt json {"); tmpFile := Some recovered_document |}.

(** A machine without network access and without cached grammars: every
    request ends in an ['error'] event. *)
Definition offline_env : ChunkerEnv unit := {|
  runtime_init := true;
  grammars_dir_ready := true;
  homedir := js "/home/user";
  file_ext := simple_ext;
  wasm_exists := λ _, false;
  https_get := λ _, NetError;
  language_load := λ _, None;
  parse_children := λ _ _, []
|}.



(** The listing of one file named [é.ts], as the bytes [git ls-files -z]
    writes, and the same bytes cut between the two bytes of [é]. *)
Definition listing_bytes : Buffer := [xc3; xa9; x2e; x74; x73; x00].
Definition listing_whole : ChildProcess :=
  {| stdout := [listing_bytes]; late_events := [ExitEvent] |}.
Definition listing_cut : ChildProcess :=
  {| stdout := [[xc3]; [xa9; x2e; x74; x73; x00]]; late_events := [ExitEvent] |}.

(* ===================================================================== *)
(** ** [NodeGit]: the per-directory caches                                *)
(* ===================================================================== *)

(** What [spawnSync("git", args, { cwd })] gives: it throws, or returns
    the exit status ([None] for [null]), whether [result.error] is set,
    and the standard output. *)
Inductive SpawnResult :=
  | SpawnThrows
  | Spawned (status : option Z) (error : bool) (out : jstring).

(** The [git] commands of [NodeGit], each run in a directory. *)
Record GitTool := {
  (** [git rev-parse --git-dir] *)
  rev_parse_git_dir : jstring → SpawnResult;
  (** [git rev-parse --show-toplevel] *)
  rev_parse_show_toplevel : jstring → SpawnResult;
  (** [git config --get remote.origin.url] *)
  config_remote_origin_url : jstring → SpawnResult
}.

(** The file system as [getGitIgnoreContent] and [getGitIgnoreFilter]
    read it. *)
Record IgnoreFs := {
  (** [fs.statSync(p).mtime.getTime()]; [None] when [statSync] throws *)
  stat_mtime : jstring → option Z;
  (** [fs.existsSync(p)] *)
  existsSync : jstring → bool;
  (** [fs.readFileSync(p, "utf-8")] *)
  readFileSync : jstring → result jstring
}.

(** [path.resolve(dir)] as a string. *)
Definition path_resolve_string (cwd dir : jstring) : jstring :=
  SLASH :: join_with SLASH (path_resolve cwd dir).

(** [getGitIgnoreContent(repoRoot)]: [None] is [null]; a failed read is
    logged and gives [null] as well. *)
Definition getGitIgnoreContent (fs : IgnoreFs) (repoRoot : jstring)
  : option jstring :=
  let gitignorePath := path_join repoRoot (js ".gitignore") in
  if existsSync fs gitignorePath then
    match readFileSync fs gitignorePath with
    | Ok c => Some c
    | Throw => None
    end
  else None.

Section NodeGit.
Context `{IgnoreEngine Ig}.

(** The four caches of a [NodeGit] instance, keyed by resolved directory.
    A cached [null] is a key bound to [None]. *)
Record NodeGit := {
  gitRepoCache : gmap jstring bool;
  gitIgnoreCache : gmap jstring (GitIgnoreFilter Ig * Z);
  gitRootCache : gmap jstring (option jstring);
  gitRemoteCache : gmap jstring (option jstring)
}.

Definition new_NodeGit : NodeGit :=
  {| gitRepoCache := ∅; gitIgnoreCache := ∅; gitRootCache := ∅;
     gitRemoteCache := ∅ |}.

Variable git : GitTool.
Variable cwd : jstring.

(** [isGitRepository(dir)] *)
Definition isGitRepository (dir : jstring) (this : NodeGit) : bool * NodeGit :=
  let normalizedDir := path_resolve_string cwd dir in
  match gitRepoCache this !! normalizedDir with
  | Some cached => (cached, this)
  | None =>
      let isGit :=
        match rev_parse_git_dir git dir with
        | Spawned status error _ =>
            bool_decide (status = Some 0%Z) && negb error
        | SpawnThrows => false
        end in
      (isGit, {| gitRepoCache := <[normalizedDir := isGit]> (gitRepoCache this);
                 gitIgnoreCache := gitIgnoreCache this;
                 gitRootCache := gitRootCache this;
                 gitRemoteCache := gitRemoteCache this |})
  end.

(** The answer read off a finished [git] command: its trimmed output when
    it exited with status 0, without error and with some output. *)
Definition trimmed_output (r : SpawnResult) : option jstring :=
  match r with
  | Spawned status error out =>
      if bool_decide (status = Some 0%Z) && negb error && truthy out
      then Some (trim out) else None
  | SpawnThrows => None
  end.

(** [getRepositoryRoot(dir)] *)
Definition getRepositoryRoot (dir : jstring) (this : NodeGit)
  : option jstring * NodeGit :=
  let normalizedDir := path_resolve_string cwd dir in
  match gitRootCache this !! normalizedDir with
  | Some cached => (cached, this)
  | None =>
      let root := trimmed_output (rev_parse_show_toplevel git dir) in
      (root, {| gitRepoCache := gitRepoCache this;
                gitIgnoreCache := gitIgnoreCache this;
                gitRootCache := <[normalizedDir := root]> (gitRootCache this);
                gitRemoteCache := gitRemoteCache this |})
  end.

(** [getRemoteUrl(dir)] *)
Definition getRemoteUrl (dir : jstring) (this : NodeGit)
  : option jstring * NodeGit :=
  let normalizedDir := path_resolve_string cwd dir in
  match gitRemoteCache this !! normalizedDir with
  | Some cached => (cached, this)
  | None =>
      let remote := trimmed_output (config_remote_origin_url git dir) in
      (remote, {| gitRepoCache := gitRepoCache this;
                  gitIgnoreCache := gitIgnoreCache this;
                  gitRootCache := gitRootCache this;
                  gitRemoteCache := <[normalizedDir := remote]> (gitRemoteCache this) |})
  end.

(** The modification time [getGitIgnoreFilter] compares: 0 when the
    ignore file cannot be probed. *)
Definition current_mtime (fs : IgnoreFs) (repoRoot : jstring) : Z :=
  default 0%Z (stat_mtime fs (path_join repoRoot (js ".gitignore"))).

(** The filter built on a cache miss. *)
Definition fresh_filter (fs : IgnoreFs) (repoRoot : jstring)
  : GitIgnoreFilter Ig :=
  let filter := new_GitIgnoreFilter None in
  match getGitIgnoreContent fs repoRoot with
  | Some c => if truthy c then add c filter else filter
  | None => filter
  end.

(** [getGitIgnoreFilter(repoRoot)] *)
Definition getGitIgnoreFilter (fs : IgnoreFs) (repoRoot : jstring)
    (this : NodeGit) : GitIgnoreFilter Ig * NodeGit :=
  let normalizedRoot := path_resolve_string cwd repoRoot in
  let currentMtime := current_mtime fs repoRoot in
  let miss :=
    let filter := fresh_filter fs repoRoot in
    (filter, {| gitRepoCache := gitRepoCache this;
                gitIgnoreCache :=
                  <[normalizedRoot := (filter, currentMtime)]> (gitIgnoreCache this);
                gitRootCache := gitRootCache this;
                gitRemoteCache := gitRemoteCache this |}) in
  match gitIgnoreCache this !! normalizedRoot with
  | None => miss
  | Some cached =>
      if negb (bool_decide (cached.2 = currentMtime)) then miss
      else (cached.1, this)
  end.

End NodeGit.

Arguments NodeGit : clear implicits.

(* ===================================================================== *)
(** ** The embedding worker: [EmbeddingWorker.embed]                      *)
(* ===================================================================== *)

(** [typedArray.slice(start, end)] for indices that are not negative. *)
Definition slice {A} (start end_ : nat) (l : list A) : list A :=
  take (end_ - start) (drop start l).

(** The tail of [embed], after the model has run: [dims] is
    [output.dims] ([None] when it is missing) and [data] is
    [output.data].  The batch size and the row width are read off
    [dims]; a width that is [undefined] makes every index [NaN], and
    [slice(NaN, NaN)] is empty. *)
Definition embed_vectors {A} (dims : option (list nat)) (data : list A)
  : list (list A) :=
  let dims := default [1; length data] dims in
  let '(batchSize, hiddenSize) :=
    match dims with
    | [b; h] => (b, Some h)
    | d :: _ => (1, Some d)
    | [] => (1, None)
    end in
  (λ i, match hiddenSize with
        | Some h => slice (i * h) (i * h + 128) data
        | None => []
        end) <$> seq 0 batchSize.

(** A message to the worker: [{ id, text?, texts? }]. *)
Record Message := {
  msg_id : jstring;
  msg_text : option jstring;
  msg_texts : option (list jstring)
}.

(** What the worker posts back; the [memory] field, a reading of
    [process.memoryUsage()], is left out.  [vectors[0]] of an empty list
    is [undefined], here [None].  An error reply carries the message of
    the exception: [Some] of the worker's own, [None] for one raised by
    the model. *)
Inductive Reply (A : Type) :=
  | ReplyVector (id : jstring) (vector : option (list A))
  | ReplyVectors (id : jstring) (vectors : list (list A))
  | ReplyError (id : jstring) (message : option jstring).
Arguments ReplyVector {A}.
Arguments ReplyVectors {A}.
Arguments ReplyError {A}.

Section Worker.
Context {A : Type}.

(** The model behind [embed]: loading it if needed and running it on the
    texts throws, or gives [output.dims] and [output.data]. *)
Variable pipe : list jstring → result (option (list nat) * list A).

(** [embed(texts)] *)
Definition embed (texts : list jstring) : result (list (list A)) :=
  match pipe texts with
  | Ok (dims, data) => Ok (embed_vectors dims data)
  | Throw => Throw
  end.

(** [message.texts || (message.text ? [message.text] : [])]: an array
    is truthy even when it is empty. *)
Definition message_inputs (message : Message) : list jstring :=
  match msg_texts message with
  | Some texts => texts
  | None =>
      match msg_text message with
      | Some t => if truthy t then [t] else []
      | None => []
      end
  end.

(** The [message] handler of the worker thread. *)
Definition on_message (message : Message) : Reply A :=
  let inputs := message_inputs message in
  if length inputs =? 0
  then ReplyError (msg_id message) (Some (js "No text provided"))
  else
    match embed inputs with
    | Throw => ReplyError (msg_id message) None
    | Ok vectors =>
        if truthy_opt (msg_text message)
           && negb (bool_decide (is_Some (msg_texts message)))
        then ReplyVector (msg_id message) (vectors !! 0)
        else ReplyVectors (msg_id message) vectors
    end.

End Worker.

(* ===================================================================== *)
(** ** Further descriptions                                               *)
(* ===================================================================== *)

(** A path segment that normalisation keeps: not empty, not [.] or
    [..], free of separators. *)
Definition normal_segment (s : jstring) : Prop :=
  (s ≠ []) ∧ (s ≠ js ".") ∧ (s ≠ js "..") ∧ (SLASH ∉ s).

(** A segment that the filter leaves alone as well: it holds no
    backslash. *)
Definition plain_segment (s : jstring) : Prop :=
  normal_segment s ∧ (BACKSLASH ∉ s).

(** A response that [downloadFile] follows to another URL. *)
Definition is_redirect (statusCode : nat) : bool :=
  (statusCode =? 302) || (statusCode =? 301).

Section Redirects.
Context {Language : Type} (env : ChunkerEnv Language).

(** [redirects url n final]: starting at [url], [n] responses in a row
    are redirections, the last of them to [final]. *)
Inductive redirects : option jstring → nat → option jstring → Prop :=
  | redirects_none url : redirects url 0 url
  | redirects_step url statusCode location n final :
      https_get env url = Response statusCode location →
      is_redirect statusCode = true →
      redirects location n final →
      redirects url (S n) final.

End Redirects.

Section ListingFailure.
Context {W : Type} (client : Mixedbread W) (w : W) (store : jstring).

(** [listing_rejects after n]: following the cursors from the request
    for [after], the [n]-th request is the first to reject. *)
Inductive listing_rejects : option jstring → nat → Prop :=
  | rejects_here after :
      files_list client w store 100 after = Throw →
      listing_rejects after 1
  | rejects_later after resp n :
      files_list client w store 100 after = Ok resp →
      truthy_opt (next_after resp) = true →
      listing_rejects (next_after resp) n →
      listing_rejects after (S n).

End ListingFailure.

Section UploadGroups.
Variable computeBufferHash : Buffer → jstring.





End UploadGroups.


(** ** Further scenarios *)

(** The top-level nodes of a small TypeScript module: a function, a
    short statement, a class and a long statement. *)
Definition module_nodes : list SyntaxNode :=
  [ {| node_type := js "function_declaration";
       text := js "function area(r) { return 3 * r * r; }";
       startPosition_row := 0; endPosition_row := 0 |};
    {| node_type := js "expression_statement";
       text := js "area(2);";
       startPosition_row := 1; endPosition_row := 1 |};
    {| node_type := js "class_declaration";
       text := js "class Circle { }";
       startPosition_row := 2; endPosition_row := 2 |};
    {| node_type := js "lexical_declaration";
       text := js "const message = 'the area of the circle of radius two is ' + area(2);";
       startPosition_row := 3; endPosition_row := 3 |} ].

Definition module_source : jstring :=
  join_with LF (text <$> module_nodes).

(** A machine with the TypeScript grammar cached, on which
    [module_source] parses into [module_nodes]. *)
Definition parsing_env : ChunkerEnv unit := {|
  runtime_init := true;
  grammars_dir_ready := true;
  homedir := js "/home/user";
  file_ext := simple_ext;
  wasm_exists := λ _, true;
  https_get := λ _, NetError;
  language_load := λ _, Some ();
  parse_children := λ _ _, module_nodes
|}.

(** A machine without cached grammar: the release URL of the TypeScript
    grammar answers with a redirection to a storage host, which serves
    the file; every other request fails. *)
Definition typescript_url : jstring :=
  js "https://github.com/tree-sitter/tree-sitter-typescript/releases/download/v0.20.3/tree-sitter-typescript.wasm".

Definition storage_url : jstring :=
  js "https://objects.example/tree-sitter-typescript.wasm".

Definition redirecting_env : ChunkerEnv unit := {|
  runtime_init := true;
  grammars_dir_ready := true;
  homedir := js "/home/user";
  file_ext := simple_ext;
  wasm_exists := λ _, false;
  https_get := λ url,
    if decide (url = Some typescript_url) then Response 302 (Some storage_url)
    else if decide (url = Some storage_url) then Response 200 None
    else NetError;
  language_load := λ _, Some ();
  parse_children := λ _ _, module_nodes
|}.

(** A machine without cached grammar behind a proxy that answers every
    request with a redirection to the requested URL. *)
Definition looping_env : ChunkerEnv unit := {|
  runtime_init := true;
  grammars_dir_ready := true;
  homedir := js "/home/user";
  file_ext := simple_ext;
  wasm_exists := λ _, false;
  https_get := λ url, Response 301 url;
  language_load := λ _, Some ();
  parse_children := λ _ _, module_nodes
|}.

(** A machine where [/repo] is a work tree cloned from a remote, with an
    ignore file, and [/tmp] is no repository; and the same machine after
    [git init] in [/tmp], the removal of the remote and an edit of the
    ignore file that kept its modification time. *)
Definition git_before : GitTool := {|
  rev_parse_git_dir := λ dir,
    if is_prefix (js "/repo") dir then Spawned (Some 0%Z) false (js ".git" ++ [LF])
    else Spawned (Some 128%Z) false [];
  rev_parse_show_toplevel := λ dir,
    if is_prefix (js "/repo") dir then Spawned (Some 0%Z) false (js "/repo" ++ [LF])
    else Spawned (Some 128%Z) false [];
  config_remote_origin_url := λ dir,
    if is_prefix (js "/repo") dir
    then Spawned (Some 0%Z) false (js "git@example.org:team/repo.git" ++ [LF])
    else Spawned (Some 1%Z) false []
|}.

Definition git_after : GitTool := {|
  rev_parse_git_dir := λ _, Spawned (Some 0%Z) false (js ".git" ++ [LF]);
  rev_parse_show_toplevel := λ dir,
    if is_prefix (js "/repo") dir then Spawned (Some 0%Z) false (js "/repo" ++ [LF])
    else Spawned (Some 0%Z) false (js "/tmp" ++ [LF]);
  config_remote_origin_url := λ _, Spawned (Some 1%Z) false []
|}.

Definition fs_before : IgnoreFs := {|
  stat_mtime := λ p, if decide (p = js "/repo/.gitignore") then Some 1700000000000%Z
                     else None;
  existsSync := λ p, bool_decide (p = js "/repo/.gitignore");
  readFileSync := λ p, if decide (p = js "/repo/.gitignore")
                       then Ok (js "dist" ++ [LF]) else Throw
|}.

Definition fs_after : IgnoreFs := {|
  stat_mtime := λ p, if decide (p = js "/repo/.gitignore") then Some 1700000000000%Z
                     else None;
  existsSync := λ p, bool_decide (p = js "/repo/.gitignore");
  readFileSync := λ p, if decide (p = js "/repo/.gitignore")
                       then Ok (js "dist" ++ [LF] ++ js "build" ++ [LF]) else Throw
|}.

(** A stand-in for the model, of width 130: the row of a text repeats
    the length of the text. *)
Definition toy_row (t : jstring) : list nat := replicate 130 (length t).

Definition toy_pipe (texts : list jstring) : result (option (list nat) * list nat) :=
  Ok (Some [length texts; 130], concat (toy_row <$> texts)).

(** A store whose listing gives a first page and fails at the second. *)
Definition failing_client : Mixedbread unit :=
  {| files_list := λ _ _ _ after,
       match after with
       | None =>
           Ok {| data := [as_entry (js "/repo/a.txt", js "h1")];
                 pagination := Some {| has_more := true;
                                       last_cursor := Some (js "/repo/a.txt") |} |}
       | Some _ => Throw
       end;
     files_upload := λ w _ _ _, (true, w) |}.

(** A listing of two ASCII names, delivered in three chunks cut inside
    the names, the last record without its terminator. *)
Definition ascii_listing : ChildProcess :=
  {| stdout := [[x61; x2e]; [x74; x73; x00; x62]; [x2e; x74; x73]];
     late_events := [ExitEvent] |}.

(** A store that answers every listing request with the same page and
    the same cursor. *)
Definition looping_client : Mixedbread unit :=
  {| files_list := λ _ _ _ _,
       Ok {| data := [as_entry (js "/repo/a.txt", js "h1")];
             pagination := Some {| has_more := true;
                                   last_cursor := Some (js "/repo/a.txt") |} |};
     files_upload := λ w _ _ _, (true, w) |}.

(* ===================================================================== *)
(** * Part II: properties                                                 *)
(* ===================================================================== *)

(** ** Strings *)

Lemma truthy_true (s : jstring) : truthy s = true ↔ s ≠ [].
Proof. destruct s; simpl; split; congruence. Qed.

Lemma truthy_false (s : jstring) : truthy s = false ↔ s = [].
Proof. destruct s; simpl; split; congruence. Qed.

Lemma or_empty_Some (s : jstring) : or_empty (Some s) = s.
Proof. by destruct s. Qed.

Lemma drop_while_all {A} (f : A → bool) (l : list A) :
  forallb f l = true → drop_while f l = [].
Proof.
  induction l as [|x l IH]; simpl; [done|].
  intros [Hx Hl]%andb_prop. rewrite Hx. auto.
Qed.

Lemma drop_while_nil_inv {A} (f : A → bool) (l : list A) :
  drop_while f l = [] → forallb f l = true.
Proof.
  induction l as [|x l IH]; simpl; [done|].
  destruct (f x); [auto | discriminate].
Qed.

Lemma drop_while_app_stop {A} (f : A → bool) (l : list A) (x : A) :
  f x = false → drop_while f (l ++ [x]) ≠ [].
Proof.
  intros Hx. induction l as [|y l IH]; simpl.
  - by rewrite Hx.
  - destruct (f y); [done | discriminate].
Qed.

(** A string trims to nothing exactly when it is made of white space. *)
Lemma trim_blank (p : jstring) :
  truthy (trim p) = false ↔ forallb is_space p = true.
Proof.
  rewrite truthy_false. unfold trim. split.
  - intros Hnil. apply drop_while_nil_inv.
    destruct (drop_while is_space p) as [|x r] eqn:Hd; [done|].
    exfalso. rewrite reverse_cons in Hnil.
    assert (Hx : is_space x = false).
    { clear Hnil. induction p as [|y p IH]; simpl in Hd; [done|].
      destruct (is_space y) eqn:Hy; [auto | congruence]. }
    apply (f_equal reverse) in Hnil. rewrite reverse_involutive in Hnil.
    by apply (drop_while_app_stop is_space (reverse r)) in Hx.
  - intros Hall. by rewrite (drop_while_all _ _ Hall).
Qed.

Lemma split_not_nil (sep : N) (s : jstring) : split sep s ≠ [].
Proof.
  destruct s as [|c s]; simpl; [done|].
  destruct (c =? sep)%N; [done|]. by destruct (split sep s).
Qed.

(** [s.split(sep).length] is one more than the number of separators. *)
Lemma split_length (sep : N) (s : jstring) :
  length (split sep s) = S (length (filter (λ c, c = sep) s)).
Proof.
  induction s as [|c s IH]; simpl; [done|].
  rewrite filter_cons. destruct (N.eqb_spec c sep) as [->|Hne].
  - rewrite decide_True by done. simpl. by rewrite IH.
  - rewrite decide_False by done.
    destruct (split sep s) eqn:Hs; [by apply split_not_nil in Hs|].
    simpl in *. done.
Qed.

(** A string without separator is its own single piece. *)
Lemma split_no_sep (sep : N) (s : jstring) :
  sep ∉ s → split sep s = [s].
Proof.
  induction s as [|c s IH]; simpl; [done|].
  intros Hnotin. apply not_elem_of_cons in Hnotin as [Hne Hs].
  destruct (N.eqb_spec c sep) as [->|_]; [done|]. by rewrite IH.
Qed.

Lemma split_pieces_no_sep (sep : N) (s p : jstring) :
  p ∈ split sep s → sep ∉ p.
Proof.
  revert p. induction s as [|c s IH]; simpl; intros p.
  - intros ->%list_elem_of_singleton. apply not_elem_of_nil.
  - destruct (N.eqb_spec c sep) as [->|Hne].
    + intros [->|?]%elem_of_cons; [apply not_elem_of_nil | auto].
    + destruct (split sep s) as [|q qs] eqn:Hs; [by apply split_not_nil in Hs|].
      intros [->|Hin]%elem_of_cons.
      * apply not_elem_of_cons. split; [done|]. apply IH. left.
      * apply IH. by right.
Qed.

(** Splitting a concatenation: the last piece of the first part and the
    first piece of the second part are glued together. *)
Lemma split_app (sep : N) (a b : jstring) :
  split sep (a ++ b) =
  removelast (split sep a) ++
  match split sep b with
  | [] => []
  | p :: ps => (default [] (last (split sep a)) ++ p) :: ps
  end.
Proof.
  induction a as [|c a IH]; simpl.
  - by destruct (split sep b).
  - destruct (split sep b) as [|p ps] eqn:Hb; [by apply split_not_nil in Hb|].
    destruct (split sep a) as [|q qs] eqn:Ha; [by apply split_not_nil in Ha|].
    destruct (c =? sep)%N.
    + rewrite IH. simpl. done.
    + rewrite IH. destruct qs as [|q' qs]; simpl; done.
Qed.

Lemma removelast_last_split (sep : N) (s : jstring) :
  split sep s = removelast (split sep s) ++ [default [] (last (split sep s))].
Proof.
  pose proof (split_not_nil sep s) as Hne.
  destruct (split sep s) as [|p ps] using rev_ind; [done|].
  rewrite removelast_last, last_snoc. done.
Qed.

(** ** The chunker *)

Lemma line_count_split (p : jstring) : length (split LF p) = line_count p.
Proof. apply split_length. Qed.

Lemma blank_trim (p : jstring) : negb (truthy (trim p)) = blank p.
Proof.
  unfold blank. destruct (forallb is_space p) eqn:Hb.
  - apply trim_blank in Hb. by rewrite Hb.
  - destruct (truthy (trim p)) eqn:Ht; [done|].
    apply trim_blank in Ht. congruence.
Qed.

(** The loop of [fallbackChunk], started from any state, appends the
    chunks of the description. *)
Lemma fallback_loop (ps : list jstring) (chunks : list Chunk) (offset : nat) :
  (foldl fallback_step (chunks, offset) ps).1
  = chunks ++ paragraph_chunks offset ps.
Proof.
  revert chunks offset. induction ps as [|p ps IH]; intros chunks offset; simpl.
  - by rewrite app_nil_r.
  - rewrite blank_trim, line_count_split. destruct (blank p).
    + apply IH.
    + rewrite IH, <- app_assoc. done.
Qed.

Lemma re_ws_star_nl_inv (s r : jstring) :
  re_ws_star_nl s = Some r →
  ∃ mid, s = mid ++ LF :: r ∧ forallb is_space mid = true.
Proof.
  revert r. induction s as [|c s IH]; simpl; intros r; [done|].
  destruct (is_space c) eqn:Hc; [|done].
  destruct (re_ws_star_nl s) as [r'|] eqn:Hs.
  - intros [= <-]. destruct (IH r' eq_refl) as (mid & -> & Hmid).
    exists (c :: mid). simpl. by rewrite Hc, Hmid.
  - destruct (N.eqb_spec c LF) as [->|]; [|done].
    intros [= <-]. by exists [].
Qed.

(** The match is greedy: nothing of the kind is left after it. *)
Lemma re_ws_star_nl_greedy (s r : jstring) :
  re_ws_star_nl s = Some r → re_ws_star_nl r = None.
Proof.
  revert r. induction s as [|c s IH]; simpl; intros r; [done|].
  destruct (is_space c); [|done].
  destruct (re_ws_star_nl s) as [r'|] eqn:Hs.
  - intros [= <-]. by apply IH.
  - destruct (c =? LF)%N; [|done]. by intros [= <-].
Qed.

(** The match is found whenever there is one. *)
Lemma re_ws_star_nl_complete (mid r : jstring) :
  forallb is_space mid = true → re_ws_star_nl (mid ++ LF :: r) ≠ None.
Proof.
  induction mid as [|c mid IH]; simpl.
  - intros _. change (is_space LF) with true. cbv iota.
    by destruct (re_ws_star_nl r).
  - intros [Hc Hmid]%andb_prop. rewrite Hc.
    destruct (re_ws_star_nl (mid ++ LF :: r)) eqn:Hs; [done|].
    by apply IH in Hmid.
Qed.

Lemma re_blank_line_inv (s r : jstring) :
  re_blank_line s = Some r →
  ∃ sep, s = sep ++ r ∧ blank_line_boundary sep ∧ ¬ boundary_extends r.
Proof.
  destruct s as [|c s]; simpl; [done|].
  destruct (N.eqb_spec c LF) as [->|]; [|done].
  intros Hm. pose proof (re_ws_star_nl_greedy _ _ Hm) as Hgreedy.
  apply re_ws_star_nl_inv in Hm as (mid & -> & Hmid).
  exists (LF :: mid ++ [LF]). split; [|split].
  - simpl. by rewrite <- app_assoc.
  - by exists mid.
  - intros (mid' & r' & -> & Hmid').
    by apply (re_ws_star_nl_complete mid' r') in Hmid'.
Qed.


Lemma re_blank_line_shorter (s r : jstring) :
  re_blank_line s = Some r → length r < length s.
Proof.
  intros (sep & -> & (mid & -> & _) & _)%re_blank_line_inv.
  rewrite length_app. simpl. lia.
Qed.

(** [length s] scan positions are enough: more fuel changes nothing. *)
Lemma split_re_go_fuel (f1 f2 : nat) (acc s : jstring) :
  length s ≤ f1 → length s ≤ f2 →
  split_re_go f1 acc s = split_re_go f2 acc s.
Proof.
  revert f2 acc s. induction f1 as [|f1 IH]; intros f2 acc s H1 H2.
  - destruct s; [|simpl in H1; lia].
    destruct f2; simpl; by rewrite ?app_nil_r.
  - destruct f2 as [|f2].
    + destruct s; [simpl; by rewrite app_nil_r | simpl in H2; lia].
    + simpl. destruct s as [|c s]; [done|].
      destruct (re_blank_line (c :: s)) as [r|] eqn:Hr.
      * apply re_blank_line_shorter in Hr. simpl in *.
        f_equal. apply IH; lia.
      * simpl in *. apply IH; lia.
Qed.

Lemma split_re_go_paragraphs (fuel : nat) (acc s : jstring) :
  paragraphs_of (reverse acc ++ s) (split_re_go fuel acc s).
Proof.
  revert acc s. induction fuel as [|fuel IH]; intros acc s; simpl.
  - constructor.
  - destruct s as [|c s].
    + rewrite app_nil_r. constructor.
    + destruct (re_blank_line (c :: s)) as [r|] eqn:Hr.
      * apply re_blank_line_inv in Hr as (sep & -> & Hsep & Hmax).
        apply paragraphs_cons; [done | done |]. apply (IH [] r).
      * replace (reverse acc ++ c :: s) with (reverse (c :: acc) ++ s)
          by (rewrite reverse_cons, <- app_assoc; done).
        apply IH.
Qed.

Lemma split_paragraphs_spec (s : jstring) :
  paragraphs_of s (split_paragraphs s).
Proof. apply (split_re_go_paragraphs (length s) [] s). Qed.



Lemma visit_children_none (children : list SyntaxNode) (chunks : list Chunk) :
  Forall yields_no_chunk children →
  foldl visit_child chunks children = chunks.
Proof.
  intros Hall. revert chunks.
  induction Hall as [|child children [Hdecl Hlen] _ IH]; intros chunks; simpl; [done|].
  unfold visit_child at 2. rewrite Hdecl.
  destruct (Nat.ltb_spec 50 (length (text child))); [lia | apply IH].
Qed.

Section ChunkerFacts.
Context {Language : Type} (env : ChunkerEnv Language).

Lemma after_init_ready (this : TreeSitterChunker Language) :
  runtime_ready env this →
  (if negb (initialized this) then init env this else (Ok (), this))
  = (Ok (), after_init env this).
Proof.
  unfold runtime_ready, after_init, init.
  destruct (initialized this) eqn:Hi; simpl; [done|].
  intros [?|[-> ->]]; [done|]. simpl. done.
Qed.

(** With a usable runtime, each of the four cases ends in the paragraph
    splitter. *)
Lemma chunk_falls_back (fuel : nat) (filePath content : jstring)
    (this : TreeSitterChunker Language) :
  runtime_ready env this →
  no_grammar_or_no_chunks env fuel filePath content this →
  ∃ this', chunk env fuel filePath content this
           = Some (Ok (fallbackChunk content), this').
Proof.
  intros Hready Hcase.
  unfold chunk. rewrite (after_init_ready this Hready).
  unfold no_grammar_or_no_chunks in Hcase.
  destruct Hcase as [Hp|[Hl|[[this' Hg]|(language & this' & Hg & Hall)]]].
  - rewrite Hp. eauto.
  - destruct (parser (after_init env this)); [|eauto].
    rewrite Hl. simpl. eauto.
  - destruct (parser (after_init env this)); [|eauto].
    destruct (truthy _); simpl; [|eauto]. rewrite Hg. eauto.
  - destruct (parser (after_init env this)); [|eauto].
    destruct (truthy _); simpl; [|eauto]. rewrite Hg.
    rewrite (visit_children_none _ [] Hall). simpl. eauto.
Qed.

Lemma fallbackChunk_paragraphs (content : jstring) :
  fallbackChunk content = paragraph_chunks 0 (split_paragraphs content).
Proof. unfold fallbackChunk. by rewrite fallback_loop. Qed.


(** Grammar acquisition failures that the chunker does contain: an
    unsupported extension and a grammar that fails to load both end in
    the paragraph splitter's result. *)
Lemma chunk_unsupported_language
    (fuel : nat) (filePath content : jstring) (this : TreeSitterChunker Language) :
  runtime_ready env this →
  language_of_ext (file_ext env filePath) = [] →
  ∃ this', chunk env fuel filePath content this
           = Some (Ok (fallbackChunk content), this').
Proof.
  intros Hready Hlang. apply chunk_falls_back; [done|]. right. by left.
Qed.

Lemma getLanguage_load_error
    (fuel : nat) (lang : jstring) (this : TreeSitterChunker Language) :
  languages this !! lang = None →
  wasm_exists env (grammar_path env lang) = true →
  language_load env (grammar_path env lang) = None →
  getLanguage env fuel lang this = Some (Ok None, this).
Proof.
  intros Hl He Hload. unfold getLanguage, load_language.
  by rewrite Hl, He, Hload.
Qed.

(** A download that ends in an ['error'] event rejects the promise of
    [downloadFile], [getLanguage] awaits it outside its [try], and so the
    rejection leaves [getLanguage]. *)
Lemma getLanguage_download_error
    (fuel : nat) (lang url : jstring) (this : TreeSitterChunker Language) :
  languages this !! lang = None →
  wasm_exists env (grammar_path env lang) = false →
  GRAMMAR_URLS lang = Some url →
  https_get env (Some url) = NetError →
  getLanguage env (S fuel) lang this = Some (Throw, this).
Proof.
  intros Hl He Hurl Hget. unfold getLanguage.
  rewrite Hl, He, Hurl. simpl. by rewrite Hget.
Qed.

(** C5.  When the grammar of the file's language is neither loaded nor
    cached and its download ends in a network error, [chunk] does not
    fall back to paragraphs: the rejected download surfaces as a
    rejection of [chunk] itself. *)
Theorem chunk_download_error_escapes
    (fuel : nat) (filePath content url : jstring)
    (this : TreeSitterChunker Language) :
  runtime_ready env this →
  parser (after_init env this) = Some TheParser →
  languages (after_init env this) !! language_of_ext (file_ext env filePath) = None →
  wasm_exists env (grammar_path env (language_of_ext (file_ext env filePath))) = false →
  GRAMMAR_URLS (language_of_ext (file_ext env filePath)) = Some url →
  https_get env (Some url) = NetError →
  chunk env (S fuel) filePath content this = Some (Throw, after_init env this).
Proof.
  intros Hready Hparser Hlang Hcache Hurl Hget.
  unfold chunk. rewrite (after_init_ready this Hready), Hparser.
  destruct (language_of_ext (file_ext env filePath)) as [|c lang] eqn:Hl;
    [done|]. simpl negb. cbv iota.
  by rewrite (getLanguage_download_error fuel _ url _ Hlang Hcache Hurl Hget).
Qed.

End ChunkerFacts.


Lemma chunk_download_error_escapes_witness :
  chunk offline_env 1 (js "/repo/src/main.ts") (js "let x = 1;")
        new_TreeSitterChunker
  = Some (Throw, {| parser := Some TheParser; languages := ∅;
                    initialized := true |}).
Proof.
  apply (chunk_download_error_escapes offline_env 0 (js "/repo/src/main.ts")
           (js "let x = 1;")
           (js "https://github.com/tree-sitter/tree-sitter-typescript/releases/download/v0.20.3/tree-sitter-typescript.wasm")).
  - right. split; reflexivity.
  - reflexivity.
  - reflexivity.
  - reflexivity.
  - reflexivity.
  - reflexivity.
Defined.

(** ** Reassembly of the file listing *)

Lemma split_resume (sep : N) (a b : jstring) :
  split sep (a ++ b)
  = removelast (split sep a) ++ split sep (default [] (last (split sep a)) ++ b).
Proof.
  rewrite split_app.
  set (la := default [] (last (split sep a))).
  assert (Hla : sep ∉ la).
  { apply (split_pieces_no_sep sep a). unfold la.
    pose proof (split_not_nil sep a).
    destruct (split sep a) as [|q qs] using rev_ind; [done|].
    rewrite last_snoc. simpl. apply elem_of_app. right. left. }
  rewrite (split_app sep la b), (split_no_sep sep la Hla). simpl. done.
Qed.

Lemma removelast_app_ne {A} (l1 l2 : list A) :
  l2 ≠ [] → removelast (l1 ++ l2) = l1 ++ removelast l2.
Proof. intros. by apply removelast_app. Qed.

Lemma last_app_ne {A} (l1 l2 : list A) :
  l2 ≠ [] → last (l1 ++ l2) = last l2.
Proof.
  intros Hne. destruct l2 as [|x l2] using rev_ind; [done|].
  by rewrite app_assoc, !last_snoc.
Qed.

(** The loop over the chunks keeps, in [buffer], the piece after the last
    separator seen so far and has yielded every non-empty piece before
    it. *)
Lemma getGitFiles_loop (dirRoot : jstring) (chunks : list Buffer)
    (buffer : jstring) (yielded : list jstring) :
  NUL ∉ buffer →
  foldl (getGitFiles_step dirRoot) (buffer, yielded) chunks
  = (default [] (last (split NUL (buffer ++ concat (Buffer_toString <$> chunks)))),
     yielded ++ (path_join dirRoot <$>
       filter (λ f, truthy f = true)
         (removelast (split NUL (buffer ++ concat (Buffer_toString <$> chunks)))))).
Proof.
  revert buffer yielded.
  induction chunks as [|chunk chunks IH]; intros buffer yielded Hbuf.
  - simpl. rewrite app_nil_r, (split_no_sep _ _ Hbuf). simpl.
    by rewrite app_nil_r.
  - simpl. unfold pop. rewrite (removelast_last_split NUL (buffer ++ _)) at 1.
    rewrite last_snoc, or_empty_Some.
    set (buffer' := buffer ++ Buffer_toString chunk).
    set (keep := default [] (last (split NUL buffer'))).
    assert (Hkeep : NUL ∉ keep).
    { apply (split_pieces_no_sep NUL buffer'). unfold keep.
      pose proof (split_not_nil NUL buffer').
      destruct (split NUL buffer') as [|q qs] using rev_ind; [done|].
      rewrite last_snoc. simpl. apply elem_of_app. right. left. }
    rewrite (IH keep _ Hkeep).
    rewrite (app_assoc buffer). fold buffer'.
    rewrite (split_resume NUL buffer'). fold keep.
    pose proof (split_not_nil NUL (keep ++ concat (Buffer_toString <$> chunks))).
    rewrite last_app_ne, removelast_app_ne by done.
    rewrite filter_app, fmap_app, app_assoc. done.
Qed.

(** Seen from the decoded chunks, the generator yields the non-empty
    records of their concatenation, in order. *)
Lemma getGitFiles_yields (dirRoot : jstring) (child : ChildProcess) :
  (getGitFiles dirRoot child).1
  = path_join dirRoot <$>
      filter (λ f, truthy f = true)
        (split NUL (concat (Buffer_toString <$> stdout child))).
Proof.
  unfold getGitFiles.
  rewrite (getGitFiles_loop dirRoot (stdout child) [] []) by apply not_elem_of_nil.
  simpl.
  set (all := concat (Buffer_toString <$> stdout child)).
  pose proof (removelast_last_split NUL all) as Hparts.
  destruct (default [] (last (split NUL all))) as [|c r]; simpl;
    rewrite Hparts at 2; rewrite filter_app, fmap_app, filter_cons.
  - rewrite decide_False by done. by rewrite filter_nil, app_nil_r.
  - rewrite decide_True by done. by rewrite filter_nil.
Qed.

(** The generator completes only on an ['exit'] or ['error'] event of the
    child process. *)
Lemma getGitFiles_completes (dirRoot : jstring) (child : ChildProcess) :
  (getGitFiles dirRoot child).2 = true →
  ∃ e, e ∈ late_events child ∧ (e = ExitEvent ∨ e = ErrorEvent).
Proof.
  unfold getGitFiles. destruct (foldl _ _ _). simpl.
  intros (e & Hin & He)%existsb_exists. exists e.
  split; [by apply list_elem_of_In|]. destruct e; auto; discriminate.
Qed.

Lemma utf8_decode_ascii (bs : list N) :
  Forall (λ b, (b < 128)%N) bs → utf8_decode None bs = bs.
Proof.
  induction 1 as [|b bs Hb _ IH]; simpl; [done|].
  unfold utf8_lead. destruct (N.leb_spec b 127); [|lia].
  simpl. by rewrite IH.
Qed.

Lemma Buffer_toString_ascii (b : Buffer) :
  ascii_only b → Buffer_toString b = Byte.to_N <$> b.
Proof.
  intros Hb. apply utf8_decode_ascii. by apply Forall_fmap.
Qed.

Lemma Buffer_toString_concat_ascii (chunks : list Buffer) :
  ascii_only (concat chunks) →
  concat (Buffer_toString <$> chunks) = Buffer_toString (concat chunks).
Proof.
  intros Hall. rewrite (Buffer_toString_ascii _ Hall).
  induction chunks as [|c chunks IH]; [done|].
  rewrite fmap_cons, !concat_cons in *.
  apply Forall_app in Hall as [Hc Hrest].
  by rewrite fmap_app, (Buffer_toString_ascii _ Hc), IH.
Qed.

(** For a listing of ASCII names, where the chunks are cut does not
    matter: any two deliveries of the same bytes yield the same paths. *)
Lemma getGitFiles_ascii_boundaries (dirRoot : jstring) (c1 c2 : ChildProcess) :
  concat (stdout c1) = concat (stdout c2) →
  ascii_only (concat (stdout c1)) →
  (getGitFiles dirRoot c1).1 = (getGitFiles dirRoot c2).1.
Proof.
  intros Heq Hascii. rewrite !getGitFiles_yields.
  rewrite !Buffer_toString_concat_ascii, Heq; [done| |done].
  by rewrite <- Heq.
Qed.

(** C7.  The same listing bytes, delivered whole and delivered in two
    chunks cut inside the two-byte character of a file name, do not yield
    the same path: decoded on its own, each half of the character becomes
    U+FFFD. *)
Theorem getGitFiles_cut_inside_character :
  concat (stdout listing_cut) = concat (stdout listing_whole)
  ∧ (getGitFiles (js "/repo") listing_whole).1 = [js "/repo/" ++ [233%N] ++ js ".ts"]
  ∧ (getGitFiles (js "/repo") listing_cut).1
    = [js "/repo/" ++ [REPLACEMENT; REPLACEMENT] ++ js ".ts"]
  ∧ (getGitFiles (js "/repo") listing_cut).1
    ≠ (getGitFiles (js "/repo") listing_whole).1.
Proof. repeat split; try reflexivity. vm_compute. discriminate. Qed.


(** ** The remote listing *)

Section ListingFacts.
Context {W : Type} (client : Mixedbread W).

Lemma record_file_lookup (m : gmap jstring (option jstring)) (f : StoreFile)
    (id : jstring) :
  record_file m f !! id
  = if bool_decide (external_id f = Some id) && truthy id
    then Some (entry_hash f) else m !! id.
Proof.
  unfold record_file. destruct (external_id f) as [e|] eqn:He.
  - destruct (truthy e) eqn:Ht; simpl.
    + case_bool_decide as Hid.
      * injection Hid as ->. by rewrite Ht, lookup_insert_eq.
      * rewrite lookup_insert_ne; [done | congruence].
    + case_bool_decide as Hid; [|done].
      injection Hid as ->. by rewrite Ht.
  - by rewrite bool_decide_eq_false_2.
Qed.

(** What the map holds after the entries of a listing were recorded. *)
Lemma record_files_lookup (entries : list StoreFile)
    (m : gmap jstring (option jstring)) (id : jstring) :
  foldl record_file m entries !! id
  = match listed_hash entries id with
    | Some h => Some h
    | None => m !! id
    end.
Proof.
  induction entries as [|f entries IH] using rev_ind.
  - unfold listed_hash. simpl. by destruct (truthy id).
  - rewrite foldl_app. simpl. rewrite record_file_lookup, IH.
    unfold listed_hash. rewrite filter_app, filter_cons, filter_nil.
    destruct (truthy id) eqn:Ht; simpl.
    + case_bool_decide as Hid.
      * rewrite decide_True by done. by rewrite last_snoc.
      * rewrite decide_False by done. by rewrite app_nil_r.
    + by rewrite andb_false_r.
Qed.

Lemma listed_hash_app_None (l1 l2 : list StoreFile) (id : jstring) :
  listed_hash l2 id = None → listed_hash (l1 ++ l2) id = listed_hash l1 id.
Proof.
  unfold listed_hash. destruct (truthy id); [|done].
  rewrite filter_app.
  destruct (filter _ l2) as [|f fs] using rev_ind; [by rewrite app_nil_r|].
  rewrite last_snoc. discriminate.
Qed.

Lemma listing_loop_run (w : W) (store : jstring) (after : option jstring)
    (pages : list ListResponse) :
  listing_run client w store after pages →
  ∀ (fuel : nat) (m : gmap jstring (option jstring)),
    length pages ≤ fuel →
    listStoreFileHashes_loop client fuel w store m after
    = Some (Ok (foldl record_file m (concat (data <$> pages)))).
Proof.
  induction 1 as [after resp Hresp Hstop | after resp pages Hresp Hmore _ IH];
    intros fuel m Hfuel.
  - destruct fuel as [|fuel]; [simpl in Hfuel; lia|].
    simpl. rewrite Hresp, Hstop, app_nil_r. done.
  - destruct fuel as [|fuel]; [simpl in Hfuel; lia|].
    simpl in *. rewrite Hresp, Hmore, foldl_app. apply IH. lia.
Qed.

(** Conversely, a listing that returns has followed such a run. *)
Lemma listing_loop_inv (fuel : nat) (w : W) (store : jstring)
    (m r : gmap jstring (option jstring)) (after : option jstring) :
  listStoreFileHashes_loop client fuel w store m after = Some (Ok r) →
  ∃ pages, listing_run client w store after pages
           ∧ length pages ≤ fuel
           ∧ r = foldl record_file m (concat (data <$> pages)).
Proof.
  revert m after. induction fuel as [|fuel IH]; intros m after; simpl; [done|].
  destruct (files_list client w store 100 after) as [resp|] eqn:Hresp; [|done].
  destruct (truthy_opt (next_after resp)) eqn:Hnext.
  - intros (pages & Hrun & Hlen & ->)%IH. exists (resp :: pages).
    split; [by eapply listing_more|]. split; [simpl; lia|].
    simpl. by rewrite foldl_app.
  - intros [= <-]. exists [resp]. split; [by apply listing_stop|].
    split; [simpl; lia|]. simpl. by rewrite app_nil_r.
Qed.

Lemma list_requests_run (w : W) (store : jstring) (after : option jstring)
    (pages : list ListResponse) :
  listing_run client w store after pages →
  ∀ fuel, length pages ≤ fuel →
    (list_requests client fuel w store after).*2 = Ok <$> pages.
Proof.
  induction 1 as [after resp Hresp Hstop | after resp pages Hresp Hmore _ IH];
    intros fuel Hfuel.
  - destruct fuel as [|fuel]; [simpl in Hfuel; lia|].
    simpl. by rewrite Hresp, Hstop.
  - destruct fuel as [|fuel]; [simpl in Hfuel; lia|].
    simpl in *. rewrite Hresp, Hmore. simpl. f_equal. apply IH. lia.
Qed.

(** C8, as amended.  [listStoreFileHashes] asks for the first page, sends
    the cursor of each page with the request for the next, and stops at
    the first page that announces no further page or carries no usable
    cursor.  Given enough requests it returns the map that holds, for
    each non-empty external identifier listed, the hash of the last entry
    listed under it (its metadata hash when that is a string, undefined
    otherwise), and nothing for any other identifier. *)
Theorem listStoreFileHashes_follows_cursors (w : W) (store : jstring)
    (pages : list ListResponse) (fuel : nat) :
  listing_run client w store None pages →
  length pages ≤ fuel →
  ∃ byExternalId,
    listStoreFileHashes client fuel w store = Some (Ok byExternalId)
    ∧ (list_requests client fuel w store None).*2 = Ok <$> pages
    ∧ ∀ id, byExternalId !! id = listed_hash (concat (data <$> pages)) id.
Proof.
  intros Hrun Hfuel. eexists. split; [|split].
  - unfold listStoreFileHashes. by apply listing_loop_run.
  - by apply list_requests_run.
  - intros id. rewrite record_files_lookup, lookup_empty.
    by destruct (listed_hash _ id).
Qed.

End ListingFacts.

(** C8, counterexample.  As first stated the claim fails: the loop also
    stops at a page that announces more entries but gives no cursor. *)
Lemma listStoreFileHashes_stops_without_cursor :
  listStoreFileHashes cursorless_client 5 () (js "store")
  = Some (Ok {[ js "/repo/a.txt" := Some (js "h1") ]})
  ∧ list_requests cursorless_client 5 () (js "store") None
    = [(None, Ok cursorless_page)]
  ∧ (has_more <$> pagination cursorless_page) = Some true.
Proof. repeat split. Qed.

(** ** The sync engine *)


Section SyncFacts.
Context {W : Type} (computeBufferHash : Buffer → jstring) (client : Mixedbread W).

Lemma upload_calls (store : jstring) (body : UploadBody) (options : UploadOptions)
    (n : Net W) :
  calls (upload client store body options n).2
  = calls n ++ [{| call_body := body; call_options := options;
                   call_resolved := (upload client store body options n).1 |}].
Proof. unfold upload. by destruct (files_upload _ _ _ _ _). Qed.

(** What one call of [uploadFile] does to the network. *)
Lemma uploadFile_spec (env : RepoEnv) (store path name : jstring) (n : Net W) :
  ∃ new, calls (uploadFile computeBufferHash client env store path name n).2
         = calls n ++ new ∧
    match readFile env path with
    | Throw =>
        uploadFile computeBufferHash client env store path name n = (Throw, n)
        ∧ new = []
    | Ok b =>
        if length b =? 0 then
          uploadFile computeBufferHash client env store path name n = (Ok false, n)
          ∧ new = []
        else
          Forall (call_for path (computeBufferHash b)) new ∧
          (((uploadFile computeBufferHash client env store path name n).1 = Ok true
            ∧ Exists (λ c, call_resolved c = true) new
            ∧ fully_uploaded new)
           ∨ ((uploadFile computeBufferHash client env store path name n).1 = Throw
              ∧ Exists (λ c, is_fallback_upload c = true ∧ call_resolved c = false) new))
    end.
Proof.
  unfold uploadFile. destruct (readFile env path) as [b|].
  2:{ exists []. by rewrite app_nil_r. }
  destruct (length b =? 0).
  { exists []. by rewrite app_nil_r. }
  set (options := {| opt_external_id := path; opt_overwrite := true;
                     opt_metadata_path := path;
                     opt_metadata_hash := computeBufferHash b |}).
  pose proof (upload_calls store (ReadStream path) options n) as H1.
  destruct (upload client store (ReadStream path) options n) as [[] n1] eqn:E1;
    simpl in H1.
  - eexists. split; [exact H1|]. split.
    + by repeat constructor.
    + left. split; [done|]. split; [by left|]. by repeat constructor.
  - pose proof (upload_calls store (FileObject b name) options n1) as H2.
    destruct (upload client store (FileObject b name) options n1) as [[] n2] eqn:E2;
      simpl in H2; rewrite H1, <- app_assoc in H2; simpl in H2.
    + eexists. split; [exact H2|]. split.
      * by repeat constructor.
      * left. split; [done|]. split; [right; by left|]. by repeat constructor.
    + eexists. split; [exact H2|]. split.
      * by repeat constructor.
      * right. split; [done|]. right. by left.
Qed.

(** What the job of one file does to the shared state. *)
Lemma sync_file_spec (env : RepoEnv) (store : jstring)
    (m : gmap jstring (option jstring)) (total : nat) (st : SyncState W)
    (path : jstring) :
  let st' := sync_file computeBufferHash client env store m total st path in
  ∃ new, calls (net st') = calls (net st) ++ new
    ∧ progress st' = progress st ++
        [{| processed := st_processed st'; uploaded := st_uploaded st';
            total := total; filePath := Some path |}]
    ∧ st_processed st' = st_processed st + (if readable env path then 1 else 0)
    ∧ if to_upload computeBufferHash env m path then
        ∃ b, readFile env path = Ok b
          ∧ Forall (call_for path (computeBufferHash b)) new
          ∧ ((st_uploaded st' = st_uploaded st + 1
              ∧ Exists (λ c, call_resolved c = true) new
              ∧ fully_uploaded new)
             ∨ (st_uploaded st' = st_uploaded st
                ∧ Exists (λ c, is_fallback_upload c = true
                               ∧ call_resolved c = false) new))
      else new = [] ∧ net st' = net st ∧ st_uploaded st' = st_uploaded st.
Proof.
  unfold sync_file, to_upload, readable. simpl.
  destruct (readFile env path) as [b|] eqn:Hread.
  2:{ exists []. simpl. rewrite app_nil_r. repeat split; lia. }
  destruct (needs_upload _ _) eqn:Hneed.
  2:{ exists []. simpl. rewrite app_nil_r, andb_false_r. repeat split; lia. }
  rewrite andb_true_r.
  pose proof (uploadFile_spec env store path (path_basename path) (net st))
    as (new & Hcalls & Hspec).
  rewrite Hread in Hspec. exists new.
  destruct (length b =? 0) eqn:Hlen; simpl.
  - destruct Hspec as [-> ->]. simpl. rewrite app_nil_r. repeat split; lia.
  - destruct Hspec as [Hfor Hcase].
    destruct (uploadFile _ _ _ _ _ _ _) as [r n'] eqn:Hup. simpl in *.
    destruct Hcase as [(-> & Hex & Hfull)|[-> Hex]]; simpl.
    + repeat split; try done. exists b. repeat split; try done. left. done.
    + repeat split; try done. exists b. repeat split; try done. right. done.
Qed.

Local Abbreviation run env store m total st files :=
  (foldl (sync_file computeBufferHash client env store m total) st files).

Local Abbreviation start w :=
  {| net := {| world := w; calls := [] |};
     st_processed := 0; st_uploaded := 0; progress := [] |}.

(** A run only adds to the calls made so far. *)
Lemma run_calls (env : RepoEnv) (store : jstring)
    (m : gmap jstring (option jstring)) (total : nat) (files : list jstring)
    (st : SyncState W) :
  ∃ new, calls (net (run env store m total st files)) = calls (net st) ++ new
    ∧ Forall (λ c, ∃ path b, path ∈ files ∧ readFile env path = Ok b
                     ∧ call_for path (computeBufferHash b) c) new
    ∧ (∀ path, path ∈ files → to_upload computeBufferHash env m path = true →
         Exists (λ c, opt_external_id (call_options c) = path
                      ∧ call_resolved c = true) new
         ∨ ¬ fully_uploaded new).
Proof.
  revert st. induction files as [|path files IH]; intros st.
  - exists []. simpl. rewrite app_nil_r. split; [done|]. split; [done|].
    intros path Hin. by apply elem_of_nil in Hin.
  - simpl.
    pose proof (sync_file_spec env store m total st path)
      as (new1 & Hc1 & _ & _ & Hcase). simpl in Hc1, Hcase.
    destruct (IH (sync_file computeBufferHash client env store m total st path))
      as (new2 & Hc2 & Hall2 & Hex2).
    exists (new1 ++ new2). split; [by rewrite Hc2, Hc1, app_assoc|].
    assert (Hall1 : Forall (λ c, ∃ p b, p ∈ path :: files ∧ readFile env p = Ok b
                              ∧ call_for p (computeBufferHash b) c) new1).
    { destruct (to_upload _ _ _ path).
      - destruct Hcase as (b & Hread & Hfor & _).
        eapply Forall_impl; [exact Hfor|]. intros c Hc. exists path, b.
        split; [left|done].
      - destruct Hcase as [-> _]. constructor. }
    split.
    + apply Forall_app. split; [done|].
      eapply Forall_impl; [exact Hall2|]. intros c (p & b & Hin & Hrest).
      exists p, b. split; [by right|done].
    + intros p Hin Hup.
      assert (Hdec : Decision (fully_uploaded (new1 ++ new2)))
        by (unfold fully_uploaded; apply _).
      destruct Hdec as [Hfull|]; [|by right].
      left. apply Forall_app in Hfull as [Hfull1 Hfull2].
      apply Exists_app.
      destruct (decide (p = path)) as [->|Hne].
      * left. rewrite Hup in Hcase.
        destruct Hcase as (b & Hread & Hfor & [(_ & Hex & _)|[_ Hex]]).
        -- apply Exists_exists in Hex as (c & Hin' & Hres).
           apply Exists_exists. exists c. split; [done|].
           rewrite Forall_forall in Hfor. split; [by apply Hfor|done].
        -- exfalso. apply Exists_exists in Hex as (c & Hin' & Hfb & Hres).
           unfold fully_uploaded in Hfull1. rewrite Forall_forall in Hfull1.
           specialize (Hfull1 c Hin' Hfb). congruence.
      * right. apply elem_of_cons in Hin as [?|Hin]; [done|].
        destruct (Hex2 p Hin Hup) as [?|Hnot]; [done | by destruct Hnot].
Qed.

(** Every candidate gets one progress report, and [processed] counts the
    candidates that could be read. *)
Lemma run_counts (env : RepoEnv) (store : jstring)
    (m : gmap jstring (option jstring)) (total : nat) (files : list jstring)
    (st : SyncState W) :
  st_processed (run env store m total st files)
  = st_processed st + length (filter (λ p, readable env p = true) files)
  ∧ length (progress (run env store m total st files))
    = length (progress st) + length files.
Proof.
  revert st. induction files as [|path files IH]; intros st; simpl.
  - lia.
  - pose proof (sync_file_spec env store m total st path)
      as (new & _ & Hprog & Hproc & _). simpl in Hprog, Hproc.
    destruct (IH (sync_file computeBufferHash client env store m total st path))
      as [-> ->].
    rewrite Hproc, Hprog, length_app. simpl.
    destruct (readable env path) eqn:Hr.
    + rewrite filter_cons_True by done. simpl. lia.
    + rewrite filter_cons_False by congruence. lia.
Qed.

(** When no upload is given up, [uploaded] grows by the number of files
    to upload. *)
Lemma run_uploaded (env : RepoEnv) (store : jstring)
    (m : gmap jstring (option jstring)) (total : nat) (files : list jstring)
    (st : SyncState W) :
  fully_uploaded (calls (net (run env store m total st files))) →
  st_uploaded (run env store m total st files)
  = st_uploaded st
    + length (filter (λ p, to_upload computeBufferHash env m p = true) files).
Proof.
  revert st. induction files as [|path files IH]; intros st; simpl.
  - lia.
  - intros Hfull. rewrite (IH _ Hfull).
    pose proof (sync_file_spec env store m total st path)
      as (new & Hc & _ & _ & Hcase). simpl in Hc, Hcase.
    destruct (run_calls env store m total files
                (sync_file computeBufferHash client env store m total st path))
      as (new2 & Hc2 & _).
    rewrite Hc2, Hc in Hfull.
    apply Forall_app in Hfull as [Hfull _]. apply Forall_app in Hfull as [_ Hfull].
    destruct (to_upload _ _ _ path) eqn:Hup.
    + rewrite filter_cons_True by done. simpl.
      destruct Hcase as (b & _ & _ & [(-> & _)|[_ Hex]]); [lia|].
      exfalso. apply Exists_exists in Hex as (c & Hin & Hfb & Hres).
      rewrite Forall_forall in Hfull. specialize (Hfull c Hin Hfb). congruence.
    + rewrite filter_cons_False by congruence. destruct Hcase as (_ & _ & ->). lia.
Qed.

(** The counters do not depend on the order in which the files are
    taken. *)
Lemma run_order_irrelevant (env : RepoEnv) (store : jstring)
    (m : gmap jstring (option jstring)) (total : nat) (files files' : list jstring)
    (st : SyncState W) :
  files ≡ₚ files' →
  st_processed (run env store m total st files)
  = st_processed (run env store m total st files')
  ∧ (fully_uploaded (calls (net (run env store m total st files))) →
     fully_uploaded (calls (net (run env store m total st files'))) →
     st_uploaded (run env store m total st files)
     = st_uploaded (run env store m total st files')).
Proof.
  intros Hperm. split.
  - destruct (run_counts env store m total files st) as [-> _].
    destruct (run_counts env store m total files' st) as [-> _].
    by rewrite Hperm.
  - intros Hfull Hfull'. rewrite !run_uploaded by done. by rewrite Hperm.
Qed.

(** A run with nothing to upload leaves the network alone. *)
Lemma run_idle (env : RepoEnv) (store : jstring)
    (m : gmap jstring (option jstring)) (total : nat) (files : list jstring)
    (st : SyncState W) :
  (∀ path, path ∈ files → to_upload computeBufferHash env m path = false) →
  net (run env store m total st files) = net st
  ∧ st_uploaded (run env store m total st files) = st_uploaded st.
Proof.
  revert st. induction files as [|path files IH]; intros st Hidle; simpl; [done|].
  pose proof (sync_file_spec env store m total st path)
    as (new & _ & _ & _ & Hcase). simpl in Hcase.
  rewrite (Hidle path) in Hcase by left. destruct Hcase as (_ & Hnet & Hup).
  destruct (IH (sync_file computeBufferHash client env store m total st path))
    as [-> ->]; [|done].
  intros p Hin. apply Hidle. by right.
Qed.

Lemma needs_upload_false (existing : option jstring) (hash : jstring) :
  needs_upload existing hash = false ↔ existing = Some hash ∧ hash ≠ [].
Proof.
  unfold needs_upload. rewrite orb_false_iff, !negb_false_iff, bool_decide_eq_true.
  split.
  - intros [Ht ->]. split; [done|]. simpl in Ht. by apply truthy_true.
  - intros [-> Hne]. split; [|done]. simpl. by apply truthy_true.
Qed.

Lemma mjoin_lookup_Some (m : gmap jstring (option jstring)) (path h : jstring) :
  mjoin (m !! path) = Some h ↔ m !! path = Some (Some h).
Proof. destruct (m !! path) as [[?|]|]; simpl; split; congruence. Qed.

(** After a run in which no upload was given up, a store that reflects
    what it was sent lists every candidate that is readable and not empty
    under the hash of its content. *)
Lemma synced_after_run (env : RepoEnv) (store : jstring)
    (m0 m1 : gmap jstring (option jstring)) (total : nat)
    (files : list jstring) (st : SyncState W) :
  (∀ b, computeBufferHash b ≠ []) →
  calls (net st) = [] →
  fully_uploaded (calls (net (run env store m0 total st files))) →
  store_reflects m0 m1 (calls (net (run env store m0 total st files))) files →
  ∀ path b, path ∈ files → readFile env path = Ok b → b ≠ [] →
    m1 !! path = Some (Some (computeBufferHash b)).
Proof.
  intros Hhash Hnil Hfull [Hsent Hkept] path b Hin Hread Hne.
  destruct (run_calls env store m0 total files st) as (new & Hc & Horigin & Hdone).
  rewrite Hnil in Hc. simpl in Hc. rewrite Hc in *.
  assert (Hdec : Decision (Forall (λ c, opt_external_id (call_options c) = path →
                                        call_resolved c = false) new)) by apply _.
  destruct Hdec as [Hnone|Hsome].
  - rewrite Forall_forall in Hkept. rewrite (Hkept path Hin Hnone).
    destruct (to_upload computeBufferHash env m0 path) eqn:Hup.
    + exfalso. destruct (Hdone path Hin Hup) as [Hex|Hnot]; [|done].
      apply Exists_exists in Hex as (c & Hinc & Hid & Hres).
      rewrite Forall_forall in Hnone. specialize (Hnone c Hinc Hid). congruence.
    + unfold to_upload in Hup. rewrite Hread in Hup.
      apply andb_false_iff in Hup as [Hlen|Hneed].
      * apply negb_false_iff, Nat.eqb_eq in Hlen. by destruct b.
      * apply needs_upload_false in Hneed as [Hm _]. by apply mjoin_lookup_Some.
  - apply not_Forall_Exists in Hsome; [|apply _].
    apply Exists_exists in Hsome as (c & Hinc & Hc'). simpl in Hc'.
    assert (Hid : opt_external_id (call_options c) = path).
    { destruct (decide (opt_external_id (call_options c) = path)); [done|].
      exfalso. apply Hc'. by intros ?. }
    assert (Hres : call_resolved c = true).
    { destruct (call_resolved c); [done|]. exfalso. by apply Hc'. }
    rewrite Forall_forall in Hsent, Horigin.
    specialize (Hsent c Hinc Hres). rewrite Hid in Hsent. rewrite Hsent.
    destruct (Horigin c Hinc) as (p' & b' & _ & Hread' & Hid' & Hhash').
    rewrite Hid in Hid'. subst p'. rewrite Hread in Hread'.
    injection Hread' as <-. by rewrite Hhash'.
Qed.

(** However the jobs end, [initialSync] returns once the listing has:
    its aggregate counts every candidate in [total], every candidate that
    could be read in [processed], and [onProgress] is called once per
    candidate. *)
Lemma initialSync_returns (fuel : nat) (env : RepoEnv) (store repoRoot : jstring)
    (w : W) (m : gmap jstring (option jstring)) :
  listStoreFileHashes client fuel w store = Some (Ok m) →
  ∃ agg st,
    initialSync computeBufferHash client fuel env store repoRoot w
    = Some (Ok (agg, st))
    ∧ st = run env store m (length (candidates env repoRoot))
             {| net := {| world := w; calls := [] |};
                st_processed := 0; st_uploaded := 0; progress := [] |}
             (candidates env repoRoot)
    ∧ total agg = length (candidates env repoRoot)
    ∧ processed agg
      = length (filter (λ p, readable env p = true) (candidates env repoRoot))
    ∧ uploaded agg = st_uploaded st
    ∧ length (progress st) = total agg.
Proof.
  intros Hlist. unfold initialSync. rewrite Hlist. fold (candidates env repoRoot).
  eexists _, _. split; [done|]. split; [done|]. simpl.
  pose proof (run_counts env store m (length (candidates env repoRoot))
                (candidates env repoRoot)
                {| net := {| world := w; calls := [] |};
                   st_processed := 0; st_uploaded := 0; progress := [] |})
    as [Hp Hl].
  simpl in Hp, Hl. by rewrite Hp, Hl.
Qed.

(** C1, as amended.  Take a first run of [initialSync] in which no upload
    was given up, and a store that afterwards lists what it was sent.  A
    second run over the same files then returns with [uploaded = 0] and
    makes no upload call at all: a readable, non-empty file is listed
    under the hash of its content and is skipped; an empty file reaches
    [uploadFile], which returns before any call; an unreadable file
    raises before the comparison. *)
Theorem initialSync_second_run_uploads_nothing
    (fuel1 fuel2 : nat) (env : RepoEnv) (store repoRoot : jstring) (w0 : W)
    (m0 m1 : gmap jstring (option jstring)) (agg1 : SyncProgress)
    (st1 : SyncState W) :
  (∀ b, computeBufferHash b ≠ []) →
  listStoreFileHashes client fuel1 w0 store = Some (Ok m0) →
  initialSync computeBufferHash client fuel1 env store repoRoot w0
  = Some (Ok (agg1, st1)) →
  fully_uploaded (calls (net st1)) →
  listStoreFileHashes client fuel2 (world (net st1)) store = Some (Ok m1) →
  store_reflects m0 m1 (calls (net st1)) (candidates env repoRoot) →
  ∃ agg2 st2,
    initialSync computeBufferHash client fuel2 env store repoRoot (world (net st1))
    = Some (Ok (agg2, st2))
    ∧ uploaded agg2 = 0
    ∧ calls (net st2) = []
    ∧ world (net st2) = world (net st1).
Proof.
  intros Hhash Hlist0 Hrun1 Hfull Hlist1 Hreflects.
  destruct (initialSync_returns fuel1 env store repoRoot w0 m0 Hlist0)
    as (agg & st & Hrun & Hst & _).
  rewrite Hrun1 in Hrun. injection Hrun as <- <-.
  destruct (initialSync_returns fuel2 env store repoRoot (world (net st1)) m1 Hlist1)
    as (agg2 & st2 & Hrun2 & Hst2 & _ & _ & Hup & _).
  exists agg2, st2. split; [done|].
  assert (Hidle : ∀ path, path ∈ candidates env repoRoot →
                    to_upload computeBufferHash env m1 path = false).
  { intros path Hin. unfold to_upload.
    destruct (readFile env path) as [b|] eqn:Hread; [|done].
    destruct (length b =? 0) eqn:Hlen; [done|]. simpl.
    apply needs_upload_false. split; [|apply Hhash].
    apply mjoin_lookup_Some.
    rewrite Hst in Hfull, Hreflects.
    apply (synced_after_run env store m0 m1 _ _ (start w0) Hhash eq_refl Hfull
             Hreflects path b Hin Hread).
    intros ->. done. }
  destruct (run_idle env store m1 (length (candidates env repoRoot))
              (candidates env repoRoot)
              {| net := {| world := world (net st1); calls := [] |};
                 st_processed := 0; st_uploaded := 0; progress := [] |} Hidle)
    as [Hnet Hupl].
  rewrite <- Hst2 in Hnet, Hupl. simpl in Hnet, Hupl.
  rewrite Hup, Hupl, Hnet. done.
Qed.


(** Every candidate is reported to [onProgress]. *)
Lemma run_reports (env : RepoEnv) (store : jstring)
    (m : gmap jstring (option jstring)) (total : nat) (files : list jstring)
    (st : SyncState W) :
  ∃ more, progress (run env store m total st files) = progress st ++ more
    ∧ ∀ path, path ∈ files → ∃ r, r ∈ more ∧ filePath r = Some path.
Proof.
  revert st. induction files as [|path files IH]; intros st; simpl.
  - exists []. rewrite app_nil_r. split; [done|].
    intros path Hin. by apply elem_of_nil in Hin.
  - pose proof (sync_file_spec env store m total st path)
      as (_ & _ & Hprog & _). simpl in Hprog.
    destruct (IH (sync_file computeBufferHash client env store m total st path))
      as (more & Hmore & Hall).
    eexists (_ :: more). split.
    + rewrite Hmore, Hprog, <- app_assoc. done.
    + intros p [->|Hin]%elem_of_cons.
      * eexists. split; [left|done].
      * destruct (Hall p Hin) as (r & Hr & Hpath). exists r. split; [by right|done].
Qed.

(** C3.  Once the listing has returned, [initialSync] returns its
    aggregate whatever happens to the files, and reports every candidate
    to [onProgress]; but a candidate that cannot be read is not counted:
    [processed] is the number of readable candidates and stays below
    [total]. *)
Theorem initialSync_read_error_not_counted
    (fuel : nat) (env : RepoEnv) (store repoRoot : jstring) (w : W)
    (m : gmap jstring (option jstring)) (path : jstring) :
  listStoreFileHashes client fuel w store = Some (Ok m) →
  path ∈ candidates env repoRoot →
  readFile env path = Throw →
  ∃ agg st,
    initialSync computeBufferHash client fuel env store repoRoot w
    = Some (Ok (agg, st))
    ∧ (∃ r, r ∈ progress st ∧ filePath r = Some path)
    ∧ processed agg
      = length (filter (λ p, readable env p = true) (candidates env repoRoot))
    ∧ processed agg < total agg.
Proof.
  intros Hlist Hin Hread.
  destruct (initialSync_returns fuel env store repoRoot w m Hlist)
    as (agg & st & Hrun & Hst & Htotal & Hproc & _).
  exists agg, st. split; [done|]. split; [|split; [done|]].
  - destruct (run_reports env store m (length (candidates env repoRoot))
                (candidates env repoRoot) (start w)) as (more & Hmore & Hall).
    rewrite <- Hst in Hmore. simpl in Hmore. rewrite Hmore. by apply Hall.
  - rewrite Hproc, Htotal. apply (length_filter_lt _ _ path); [done|].
    unfold readable. by rewrite Hread.
Qed.

End SyncFacts.


Lemma toy_hash_nonempty (b : Buffer) : toy_hash b ≠ [].
Proof. done. Qed.

(** C1, counterexample.  As first stated the claim fails.  A first run
    that completes after a refused upload leaves the file for the second
    run, which uploads it.  And after a first run without any failure, an
    empty file has no entry in the store, so the second run does take the
    upload branch for it (where [uploadFile] then returns without
    uploading). *)
Lemma initialSync_retries_refused_upload :
  (∃ agg1 st1 agg2 st2,
     initialSync toy_hash ref_client 1 (one_file (Ok hi)) store_name repo_root
       flaky_remote = Some (Ok (agg1, st1))
     ∧ initialSync toy_hash ref_client 1 (one_file (Ok hi)) store_name repo_root
         (world (net st1)) = Some (Ok (agg2, st2))
     ∧ uploaded agg1 = 0
     ∧ uploaded agg2 = 1
     ∧ length (calls (net st2)) = 1)
  ∧ (∃ agg1 st1 m1,
       initialSync toy_hash ref_client 1 (two_files (Ok hi) (Ok [])) store_name
         repo_root empty_remote = Some (Ok (agg1, st1))
       ∧ fully_uploaded (calls (net st1))
       ∧ world (net st1) = synced_remote
       ∧ listStoreFileHashes ref_client 1 synced_remote store_name = Some (Ok m1)
       ∧ needs_upload (mjoin (m1 !! js "/repo/b.txt")) (toy_hash []) = true).
Proof.
  split.
  - do 4 eexists. repeat split.
  - do 3 eexists. repeat split. repeat constructor.
Qed.

Lemma initialSync_second_run_uploads_nothing_witness :
  ∃ agg2 st2,
    initialSync toy_hash ref_client 1 (two_files (Ok hi) (Ok [])) store_name
      repo_root synced_remote
    = Some (Ok (agg2, st2))
    ∧ uploaded agg2 = 0
    ∧ calls (net st2) = []
    ∧ world (net st2) = synced_remote.
Proof.
  let r := eval vm_compute in
    (initialSync toy_hash ref_client 1 (two_files (Ok hi) (Ok [])) store_name
       repo_root empty_remote) in
  match r with
  | Some (Ok (?agg1, ?st1)) =>
      apply (initialSync_second_run_uploads_nothing toy_hash ref_client 1 1
               (two_files (Ok hi) (Ok [])) store_name repo_root empty_remote
               ∅ {[ js "/repo/a.txt" := Some (toy_hash hi) ]} agg1 st1)
  end.
  - done.
  - reflexivity.
  - reflexivity.
  - repeat constructor.
  - reflexivity.
  - split.
    + constructor; [intros _; reflexivity | constructor].
    + constructor.
      * intros Hnone. apply Forall_cons in Hnone as [Hnone _].
        specialize (Hnone eq_refl). discriminate.
      * constructor; [intros _; reflexivity | constructor].
Defined.



(** The condition on the first run matters: a file that was empty at the
    first run keeps whatever entry the store had for it, so a change back
    to the content the store still lists goes unnoticed. *)
Example initialSync_stale_entry_hides_change :
  ∃ agg1 st1 agg2 st2,
    initialSync toy_hash ref_client 1 (one_file (Ok [])) store_name repo_root
      synced_remote = Some (Ok (agg1, st1))
    ∧ initialSync toy_hash ref_client 1 (one_file (Ok hi)) store_name repo_root
        (world (net st1)) = Some (Ok (agg2, st2))
    ∧ changed_nonempty (one_file (Ok [])) (one_file (Ok hi)) (js "/repo/a.txt") = true
    ∧ uploaded agg2 = 0.
Proof. do 4 eexists. repeat split. Qed.

Lemma initialSync_read_error_not_counted_witness :
  ∃ agg st,
    initialSync toy_hash ref_client 1 (two_files (Ok hi) Throw) store_name
      repo_root empty_remote
    = Some (Ok (agg, st))
    ∧ (∃ r, r ∈ progress st ∧ filePath r = Some (js "/repo/b.txt"))
    ∧ processed agg
      = length (filter (λ p, readable (two_files (Ok hi) Throw) p = true)
                  (candidates (two_files (Ok hi) Throw) repo_root))
    ∧ processed agg < total agg.
Proof.
  apply (initialSync_read_error_not_counted toy_hash ref_client 1
           (two_files (Ok hi) Throw) store_name repo_root empty_remote ∅).
  - reflexivity.
  - vm_compute. right. left.
  - reflexivity.
Defined.

(** The single unreadable candidate: [processed = 0] of [total = 1].  A
    candidate whose upload is refused, in contrast, is counted. *)
Example initialSync_unreadable_file :
  (∃ st, initialSync toy_hash ref_client 1 (one_file Throw) store_name repo_root
           empty_remote
         = Some (Ok ({| processed := 0; uploaded := 0; total := 1;
                        filePath := None |}, st)))
  ∧ (∃ st, initialSync toy_hash ref_client 1 (one_file (Ok hi)) store_name
             repo_root flaky_remote
           = Some (Ok ({| processed := 1; uploaded := 0; total := 1;
                          filePath := None |}, st))).
Proof. split; eexists; reflexivity. Qed.

Lemma listStoreFileHashes_follows_cursors_witness :
  ∃ byExternalId,
    listStoreFileHashes ref_client 2 paged_remote store_name = Some (Ok byExternalId)
    ∧ (list_requests ref_client 2 paged_remote store_name None).*2
      = Ok <$> paged_listing
    ∧ ∀ id, byExternalId !! id = listed_hash (concat (data <$> paged_listing)) id.
Proof.
  apply (listStoreFileHashes_follows_cursors ref_client paged_remote store_name
           paged_listing 2).
  - apply listing_more; [reflexivity | reflexivity |].
    apply listing_stop; reflexivity.
  - simpl. lia.
Defined.

(** ** The metadata store *)

Section MetaStoreFacts.
Variable JSON_parse : jstring → option (gmap jstring jstring).
Variable JSON_stringify : gmap jstring jstring → jstring.

Lemma save_then_read (this : MetaStore) (d : Disk) :
  JSON_parse (JSON_stringify (store_data this)) = Some (store_data this) →
  read_document JSON_parse (metaFile (save JSON_stringify this d))
  = Some (store_data this)
  ∧ tmpFile (save JSON_stringify this d) = None.
Proof. intros Hround. unfold save. simpl. done. Qed.

(** C4.  With a primary file that does not parse, [load] takes the
    mapping of the staging file when that one parses, so that [get]
    answers from it, and saves it back: the primary file then parses to
    the same mapping (given that what [save] writes can be read back).
    When neither file parses, [load] yields the empty mapping and leaves
    the disk alone.  [load] is a total function: there is no input on
    which it fails. *)
Theorem load_recovers_from_staging (this : MetaStore) (d : Disk) :
  read_document JSON_parse (metaFile d) = None →
  match read_document JSON_parse (tmpFile d) with
  | Some m =>
      JSON_parse (JSON_stringify m) = Some m →
      (∀ key, get key (load JSON_parse JSON_stringify this d).1 = m !! key)
      ∧ read_document JSON_parse
          (metaFile (load JSON_parse JSON_stringify this d).2) = Some m
  | None =>
      (∀ key, get key (load JSON_parse JSON_stringify this d).1 = None)
      ∧ (load JSON_parse JSON_stringify this d).2 = d
  end.
Proof.
  intros Hprimary. unfold load. rewrite Hprimary.
  destruct (read_document JSON_parse (tmpFile d)) as [m|] eqn:Htmp.
  - intros Hround. simpl. split; [done|].
    by apply (save_then_read {| store_data := m |} d).
  - simpl. split; [|done]. intros key. unfold get. simpl. apply lookup_empty.
Qed.

End MetaStoreFacts.

Lemma load_recovers_from_staging_witness :
  (∀ key, get key (load flat_json_parse flat_json_stringify new_MetaStore
                     torn_disk).1
          = ({[ js "recovered-file" := js "recovered-hash" ]}
               : gmap jstring jstring) !! key)
  ∧ read_document flat_json_parse
      (metaFile (load flat_json_parse flat_json_stringify new_MetaStore
                   torn_disk).2)
    = Some {[ js "recovered-file" := js "recovered-hash" ]}.
Proof.
  apply (load_recovers_from_staging flat_json_parse flat_json_stringify
           new_MetaStore torn_disk).
  - reflexivity.
  - reflexivity.
Defined.

(** The recovery test of the repository, step by step. *)
Example recovery_test :
  let '(newStore, disk) :=
    load flat_json_parse flat_json_stringify new_MetaStore torn_disk in
  get (js "recovered-file") newStore = Some (js "recovered-hash")
  ∧ (∃ content, metaFile disk = Some content
                ∧ includes (js "recovered-hash") content = true)
  ∧ load flat_json_parse flat_json_stringify new_MetaStore
      {| metaFile := Some (js "corrupt json {"); tmpFile := None |}
    = (new_MetaStore,
       {| metaFile := Some (js "corrupt json {"); tmpFile := None |}).
Proof. vm_compute. split; [done|]. split; [eexists; split; reflexivity | done]. Qed.

(** ** The ignore filter *)

Lemma strip_common_same (l : list jstring) : strip_common l l = ([], []).
Proof. induction l as [|x l IH]; simpl; [done|]. by rewrite decide_True. Qed.

Lemma path_relative_same (cwd p : jstring) : path_relative cwd p p = [].
Proof. unfold path_relative. by rewrite strip_common_same. Qed.

Lemma join_with_dotdot (l : list jstring) :
  ∃ rest, join_with SLASH (js ".." :: l) = js ".." ++ rest
          ∧ (rest = [] ∨ head rest = Some SLASH).
Proof.
  destruct l as [|x l].
  - exists []. split; [done | by left].
  - exists (SLASH :: join_with SLASH (x :: l)). split; [done | by right].
Qed.

(** The relative form of a path outside the root begins with the
    segment [..]. *)
Lemma path_relative_outside (cwd root filePath : jstring) :
  outside_root cwd root filePath →
  ∃ rest, path_relative cwd root filePath = js ".." ++ rest
          ∧ (rest = [] ∨ head rest = Some SLASH).
Proof.
  unfold outside_root, path_relative.
  destruct (strip_common _ _) as [up down]. simpl.
  destruct up as [|u up]; [done|]. intros _. simpl.
  apply join_with_dotdot.
Qed.

Lemma normalize_outside (cwd root filePath : jstring) :
  outside_root cwd root filePath →
  ∃ rest, normalizePathForIgnore cwd filePath root = js ".." ++ rest
          ∧ (rest = [] ∨ head rest = Some SLASH).
Proof.
  intros (rest & Hrel & Hrest)%path_relative_outside.
  unfold normalizePathForIgnore. rewrite Hrel.
  exists (replace_backslashes rest). split.
  - unfold replace_backslashes. by rewrite fmap_app.
  - destruct Hrest as [->|Hhead]; [by left|]. right.
    destruct rest as [|c rest]; [done|]. injection Hhead as ->. done.
Qed.

Section IgnoreFacts.
Context `{IgnoreEngine Ig}.

Lemma isIgnored_root (cwd : jstring) (statSync : jstring → StatResult)
    (this : GitIgnoreFilter Ig) (root : jstring) :
  isIgnored cwd statSync this root root = Ok false.
Proof. unfold isIgnored, normalizePathForIgnore. by rewrite path_relative_same. Qed.

Lemma isIgnored_outside (cwd : jstring) (statSync : jstring → StatResult)
    (this : GitIgnoreFilter Ig) (root filePath : jstring) :
  outside_root cwd root filePath →
  ∃ rest,
    normalizePathForIgnore cwd filePath root = js ".." ++ rest
    ∧ (rest = [] ∨ head rest = Some SLASH)
    ∧ isIgnored cwd statSync this filePath root
      = ignores (ignoreInstance this)
          (js ".." ++ rest ++
           (if probes_as_directory statSync filePath then [SLASH] else [])).
Proof.
  intros (rest & Hnorm & Hrest)%normalize_outside.
  exists rest. split; [done|]. split; [done|].
  unfold isIgnored, probes_as_directory. rewrite Hnorm. simpl.
  destruct (statSync filePath) as [|kind]; [|destruct (stat_isDirectory kind)];
    by rewrite ?app_nil_r.
Qed.


End IgnoreFacts.

(** With the reference engine, a path outside the root is refused
    whatever the rules: the call throws. *)
Lemma isIgnored_outside_refused (cwd : jstring)
    (statSync : jstring → StatResult) (this : GitIgnoreFilter (list jstring))
    (root filePath : jstring) :
  outside_root cwd root filePath →
  isIgnored cwd statSync this filePath root = Throw.
Proof.
  intros Hout.
  destruct (isIgnored_outside cwd statSync this root filePath Hout)
    as (rest & _ & Hrest & ->).
  simpl. unfold ref_ignores. simpl.
  destruct Hrest as [->|Hhead].
  - by destruct (probes_as_directory statSync filePath).
  - destruct rest as [|c rest]; [done|]. injection Hhead as ->. done.
Qed.

(** C6, as amended.  Whatever the rules, the root itself is not ignored.
    For a path outside the root the filter has no rule of its own: the
    relative form, which begins with the segment [..], goes to the
    pattern engine (with a separator appended for a directory) and the
    call ends as the engine does.  The reference engine refuses such a
    path, so that with it the call throws whatever the rules. *)
Theorem isIgnored_root_and_outside `{IgnoreEngine Ig} (cwd : jstring)
    (statSync : jstring → StatResult) (this : GitIgnoreFilter Ig)
    (reference : GitIgnoreFilter (list jstring)) (root filePath : jstring) :
  isIgnored cwd statSync this root root = Ok false
  ∧ (outside_root cwd root filePath →
     (∃ rest,
        normalizePathForIgnore cwd filePath root = js ".." ++ rest
        ∧ (rest = [] ∨ head rest = Some SLASH)
        ∧ isIgnored cwd statSync this filePath root
          = ignores (ignoreInstance this)
              (js ".." ++ rest ++
               (if probes_as_directory statSync filePath then [SLASH] else [])))
     ∧ isIgnored cwd statSync reference filePath root = Throw).
Proof.
  split; [apply isIgnored_root|]. intros Hout.
  split; [by apply isIgnored_outside | by apply isIgnored_outside_refused].
Qed.

(** C6, counterexample.  As first stated the claim fails: the parent of
    the root is not reported as ignored; with the reference engine the
    call throws, with or without rules. *)
Lemma isIgnored_parent_of_root :
  outside_root (js "/") (js "/repo") (js "/repo/..")
  ∧ normalizePathForIgnore (js "/") (js "/repo/..") (js "/repo") = js ".."
  ∧ isIgnored (js "/") (λ _, Stats Directory)
      (new_GitIgnoreFilter (Ig := list jstring) None) (js "/repo/..") (js "/repo")
    ≠ Ok true
  ∧ isIgnored (js "/") (λ _, Stats Directory)
      (new_GitIgnoreFilter (Ig := list jstring) (Some (js "dist/" ++ [LF] ++ js "*.log")))
      (js "/repo/..") (js "/repo")
    ≠ Ok true.
Proof. repeat split; vm_compute; discriminate. Qed.

Lemma isIgnored_root_and_outside_witness :
  isIgnored (js "/") (λ _, Stats RegularFile)
    (new_GitIgnoreFilter (Ig := list jstring) (Some (js "dist/")))
    (js "/repo") (js "/repo") = Ok false
  ∧ (∃ rest,
       normalizePathForIgnore (js "/") (js "/other/file.ts") (js "/repo")
       = js ".." ++ rest
       ∧ (rest = [] ∨ head rest = Some SLASH)
       ∧ isIgnored (js "/") (λ _, Stats RegularFile)
           (new_GitIgnoreFilter (Ig := list jstring) (Some (js "dist/")))
           (js "/other/file.ts") (js "/repo")
         = ignores (ignoreInstance
                      (new_GitIgnoreFilter (Ig := list jstring) (Some (js "dist/"))))
             (js ".." ++ rest ++
              (if probes_as_directory (λ _, Stats RegularFile) (js "/other/file.ts")
               then [SLASH] else [])))
  ∧ isIgnored (js "/") (λ _, Stats RegularFile)
      (new_GitIgnoreFilter (Ig := list jstring) (Some (js "*")))
      (js "/other/file.ts") (js "/repo") = Throw.
Proof.
  destruct (isIgnored_root_and_outside (js "/") (λ _, Stats RegularFile)
              (new_GitIgnoreFilter (Ig := list jstring) (Some (js "dist/")))
              (new_GitIgnoreFilter (Ig := list jstring) (Some (js "*")))
              (js "/repo") (js "/other/file.ts")) as [Hroot Houtside].
  split; [exact Hroot|]. apply Houtside. vm_compute. discriminate.
Defined.



(** The tests of the repository on the filter, run on the reference
    engine: [dist/] and [*.log] ignore the directory [dist], the file
    below it and [app/debug.log], and leave [app/index.ts] alone. *)
Example ignore_test :
  let filter := new_GitIgnoreFilter (Ig := list jstring)
                  (Some (js "dist/" ++ [LF] ++ js "*.log" ++ [LF])) in
  let statSync := λ p, if decide (p = js "/tmp/t/dist") then Stats Directory
                       else if decide (p = js "/tmp/t/app") then Stats Directory
                       else Stats RegularFile in
  isIgnored (js "/") statSync filter (js "/tmp/t/dist") (js "/tmp/t") = Ok true
  ∧ isIgnored (js "/") statSync filter (js "/tmp/t/dist/file.js") (js "/tmp/t") = Ok true
  ∧ isIgnored (js "/") statSync filter (js "/tmp/t/app/debug.log") (js "/tmp/t") = Ok true
  ∧ isIgnored (js "/") statSync filter (js "/tmp/t/app/index.ts") (js "/tmp/t") = Ok false.
Proof. repeat split. Qed.

(* ===================================================================== *)
(** * Part III: further properties of the code                            *)
(* ===================================================================== *)

(** ** The paragraph splitter *)

Lemma blank_app (a b : jstring) : blank (a ++ b) = blank a && blank b.
Proof. unfold blank. apply forallb_app. Qed.

Lemma blank_boundary (sep : jstring) : blank_line_boundary sep → blank sep = true.
Proof.
  intros (mid & -> & Hmid). unfold blank. simpl.
  rewrite forallb_app, Hmid. done.
Qed.

Lemma paragraphs_blank (s : jstring) (ps : list jstring) :
  paragraphs_of s ps → blank s = true ↔ Forall (λ p, blank p = true) ps.
Proof.
  induction 1 as [p | p sep rest ps Hsep _ _ IH].
  - split; [by repeat constructor | by inversion 1].
  - rewrite !blank_app, (blank_boundary _ Hsep), andb_true_l, andb_true_iff, IH.
    split; [intros [? ?]; by constructor | by inversion 1].
Qed.

Lemma paragraph_chunks_nil (offset : nat) (ps : list jstring) :
  paragraph_chunks offset ps = [] ↔ Forall (λ p, blank p = true) ps.
Proof.
  revert offset. induction ps as [|p ps IH]; intros offset; simpl.
  - split; [constructor | done].
  - destruct (blank p) eqn:Hp.
    + rewrite IH. split; [by constructor | by inversion 1].
    + split; [done | inversion 1; congruence].
Qed.

Lemma fallbackChunk_nil_blank (source : jstring) :
  fallbackChunk source = [] → blank source = true.
Proof.
  rewrite fallbackChunk_paragraphs, paragraph_chunks_nil.
  intros Hall.
  apply (paragraphs_blank source (split_paragraphs source));
    [apply split_paragraphs_spec | exact Hall].
Qed.

(** X1.  [fallbackChunk] returns no chunk exactly when the content is
    made of white space only (the empty content included). *)
Theorem fallbackChunk_empty_iff_blank (source : jstring) :
  fallbackChunk source = [] ↔ blank source = true.
Proof.
  rewrite fallbackChunk_paragraphs, paragraph_chunks_nil.
  symmetry. apply paragraphs_blank, split_paragraphs_spec.
Qed.

Lemma line_count_app (a b : jstring) :
  line_count (a ++ b) + 1 = line_count a + line_count b.
Proof. unfold line_count. rewrite filter_app, length_app. lia. Qed.

Lemma line_count_boundary (sep : jstring) :
  blank_line_boundary sep → 3 ≤ line_count sep.
Proof.
  intros (mid & -> & _). unfold line_count.
  rewrite filter_cons_True by done. simpl.
  rewrite filter_app, length_app, filter_cons_True by done. simpl. lia.
Qed.

(** The paragraphs account for fewer lines than the content has: each
    boundary swallows at least one. *)
Lemma paragraphs_line_count (s : jstring) (ps : list jstring) :
  paragraphs_of s ps →
  sum_list (line_count <$> ps) + length ps ≤ line_count s + 1.
Proof.
  induction 1 as [p | p sep rest ps Hsep _ _ IH]; [simpl; lia|].
  rewrite fmap_cons.
  change (sum_list (line_count p :: (line_count <$> ps)))
    with (line_count p + sum_list (line_count <$> ps)).
  cbn [length].
  pose proof (line_count_app p (sep ++ rest)).
  pose proof (line_count_app sep rest).
  pose proof (line_count_boundary sep Hsep). lia.
Qed.

(** The chunks of the description, seen from the offset they start at. *)
Lemma paragraph_chunks_ranges (offset : nat) (ps : list jstring) :
  Forall (λ c, type c = block
               ∧ blank (content c) = false
               ∧ offset ≤ startLine c
               ∧ endLine c = startLine c + line_count (content c)
               ∧ endLine c ≤ offset + sum_list (line_count <$> ps))
         (paragraph_chunks offset ps).
Proof.
  revert offset. induction ps as [|p ps IH]; intros offset; [constructor|].
  rewrite fmap_cons.
  change (sum_list (line_count p :: (line_count <$> ps)))
    with (line_count p + sum_list (line_count <$> ps)).
  cbn [paragraph_chunks].
  assert (Hrest : Forall (λ c, type c = block
               ∧ blank (content c) = false
               ∧ offset ≤ startLine c
               ∧ endLine c = startLine c + line_count (content c)
               ∧ endLine c ≤ offset + (line_count p + sum_list (line_count <$> ps)))
         (paragraph_chunks (offset + line_count p) ps)).
  { eapply Forall_impl; [apply IH|]. cbv beta. intros c (? & ? & ? & ? & ?).
    repeat split; try done; lia. }
  destruct (blank p) eqn:Hp; [done|].
  constructor; [|done]. cbn [type content startLine endLine].
  repeat split; try done; lia.
Qed.

Lemma paragraph_chunks_ordered (offset : nat) (ps : list jstring)
    (i j : nat) (c1 c2 : Chunk) :
  i < j →
  paragraph_chunks offset ps !! i = Some c1 →
  paragraph_chunks offset ps !! j = Some c2 →
  endLine c1 ≤ startLine c2.
Proof.
  revert offset i j. induction ps as [|p ps IH]; intros offset i j Hij;
    cbn [paragraph_chunks]; [done|].
  destruct (blank p); [by apply IH|].
  destruct i as [|i]; destruct j as [|j]; try lia; cbn [lookup list_lookup].
  - intros [= <-] Hc2. cbn [endLine].
    pose proof (paragraph_chunks_ranges (offset + line_count p) ps) as Hall.
    rewrite Forall_forall in Hall.
    apply list_elem_of_lookup_2 in Hc2. apply Hall in Hc2. lia.
  - apply IH. lia.
Qed.

Lemma fallbackChunk_blocks (source : jstring) :
  Forall (λ c, type c = block) (fallbackChunk source).
Proof.
  rewrite fallbackChunk_paragraphs.
  eapply Forall_impl; [apply paragraph_chunks_ranges|].
  cbv beta. by intros c (? & _).
Qed.

(** X2.  The chunks of [fallbackChunk] are [block] chunks, none of them
    blank, each running over as many lines as its content has, in
    increasing and non-overlapping order.  Their numbering runs behind
    the lines of the content: the end of any chunk, plus the number of
    boundaries the content was cut at, stays within the content's line
    count. *)
Theorem fallbackChunk_ranges (source : jstring) :
  Forall (λ c, type c = block
               ∧ blank (content c) = false
               ∧ startLine c < endLine c
               ∧ endLine c = startLine c + line_count (content c)
               ∧ endLine c + length (split_paragraphs source)
                 ≤ line_count source + 1)
         (fallbackChunk source)
  ∧ ∀ i j c1 c2, i < j →
      fallbackChunk source !! i = Some c1 →
      fallbackChunk source !! j = Some c2 →
      endLine c1 ≤ startLine c2.
Proof.
  rewrite fallbackChunk_paragraphs. split.
  - pose proof (paragraphs_line_count _ _ (split_paragraphs_spec source)).
    eapply Forall_impl; [apply paragraph_chunks_ranges|]. cbv beta.
    intros c (? & ? & ? & Hend & ?). repeat split; try done.
    + unfold line_count in Hend. lia.
    + lia.
  - intros i j c1 c2. apply paragraph_chunks_ordered.
Qed.

(** ** The chunker *)

Section ChunkerMore.
Context {Language : Type} (env : ChunkerEnv Language).

(** A result of [chunk] is the paragraph splitter's, or the non-empty
    result of the pass over the top-level nodes. *)
Lemma chunk_result_cases (fuel : nat) (filePath source : jstring)
    (this this' : TreeSitterChunker Language) (cs : list Chunk) :
  chunk env fuel filePath source this = Some (Ok cs, this') →
  cs = fallbackChunk source
  ∨ (cs ≠ [] ∧ ∃ language,
       cs = foldl visit_child [] (parse_children env language source)).
Proof.
  unfold chunk.
  destruct (if negb (initialized this) then init env this else (Ok (), this))
    as [[[]|] this1]; [|done].
  destruct (parser this1); [|intros [= <- _]; by left].
  destruct (negb (truthy _)); [intros [= <- _]; by left|].
  destruct (getLanguage env fuel _ this1) as [[[[language|]|] this2]|]; try done.
  - destruct (length _ =? 0) eqn:Hlen.
    + intros [= <- _]. by left.
    + intros [= <- _]. right. split; [|by exists language].
      intros Hnil. rewrite Hnil in Hlen. done.
  - intros [= <- _]. by left.
Qed.

(** What one top-level node adds. *)
Lemma visit_child_spec (chunks : list Chunk) (child : SyntaxNode) :
  (visit_child chunks child = chunks
   ∧ is_declaration (node_type child) = false
   ∧ length (text child) ≤ 50)
  ∨ ∃ c, visit_child chunks child = chunks ++ [c]
         ∧ content c = text child
         ∧ startLine c = startPosition_row child
         ∧ endLine c = endPosition_row child
         ∧ type c = (if is_declaration (node_type child)
                     then if includes (js "class") (node_type child)
                          then class else function
                     else other)
         ∧ (is_declaration (node_type child) = false → 50 < length (text child)).
Proof.
  unfold visit_child. destruct (is_declaration (node_type child)) eqn:Hd.
  - right. eexists. repeat split; done.
  - destruct (Nat.ltb_spec 50 (length (text child))).
    + right. eexists. repeat split; done.
    + left. done.
Qed.

Lemma visit_children_spec (children : list SyntaxNode) (acc : list Chunk) :
  ∃ new, foldl visit_child acc children = acc ++ new
    ∧ (content <$> new) `sublist_of` (text <$> children)
    ∧ Forall (λ c, type c ≠ block
                   ∧ (type c = other → 50 < length (content c))
                   ∧ ∃ child, child ∈ children
                       ∧ content c = text child
                       ∧ startLine c = startPosition_row child
                       ∧ endLine c = endPosition_row child) new
    ∧ ∀ child, child ∈ children → is_declaration (node_type child) = true →
        ∃ c, c ∈ new ∧ content c = text child
             ∧ type c = (if includes (js "class") (node_type child)
                         then class else function).
Proof.
  revert acc. induction children as [|child children IH]; intros acc.
  - exists []. rewrite app_nil_r. repeat split; try done.
    intros child Hin. by apply elem_of_nil in Hin.
  - cbn [foldl].
    destruct (IH (visit_child acc child)) as (new & Hnew & Hsub & Hall & Hdecl).
    assert (Hlift : Forall (λ c, type c ≠ block
                   ∧ (type c = other → 50 < length (content c))
                   ∧ ∃ ch, ch ∈ child :: children
                       ∧ content c = text ch
                       ∧ startLine c = startPosition_row ch
                       ∧ endLine c = endPosition_row ch) new).
    { eapply Forall_impl; [exact Hall|]. cbv beta.
      intros c (? & ? & ch & ? & ?). repeat split; try done.
      exists ch. split; [by right | done]. }
    destruct (visit_child_spec acc child)
      as [(Heq & Hd & Hlen)|(c & Heq & Hc & Hs & He & Ht & Hbig)].
    + exists new. rewrite Hnew, Heq. split; [done|]. split; [|split; [done|]].
      * rewrite fmap_cons. by apply sublist_cons.
      * intros ch [->|Hin]%elem_of_cons Hdch; [congruence|].
        by apply Hdecl.
    + exists (c :: new). rewrite Hnew, Heq, <- app_assoc. split; [done|].
      split; [|split].
      * rewrite !fmap_cons, Hc. by apply sublist_skip.
      * constructor; [|done]. split; [|split].
        -- rewrite Ht. by repeat case_match.
        -- rewrite Ht, Hc. destruct (is_declaration (node_type child)); [|auto].
           by case_match.
        -- exists child. split; [left | done].
      * intros ch [->|Hin]%elem_of_cons Hdch.
        -- exists c. split; [left|]. split; [done|]. by rewrite Ht, Hdch.
        -- destruct (Hdecl ch Hin Hdch) as (c' & Hin' & Hc').
           exists c'. split; [by right | done].
Qed.

(** X3.  [chunk] returns no chunk only for a content made of white space,
    and never mixes the two kinds of result: either every chunk is a
    [block] of the paragraph splitter, or none is. *)
Theorem chunk_empty_or_uniform (fuel : nat) (filePath source : jstring)
    (this this' : TreeSitterChunker Language) (cs : list Chunk) :
  chunk env fuel filePath source this = Some (Ok cs, this') →
  (cs = [] → blank source = true)
  ∧ (Forall (λ c, type c = block) cs ∨ Forall (λ c, type c ≠ block) cs).
Proof.
  intros [->|(Hne & language & ->)]%chunk_result_cases.
  - split; [apply fallbackChunk_nil_blank|]. left.
    apply fallbackChunk_blocks.
  - split; [done|]. right.
    destruct (visit_children_spec (parse_children env language source) [])
      as (new & -> & _ & Hall & _).
    eapply Forall_impl; [exact Hall|]. cbv beta. by intros c (? & _).
Qed.

(** X4.  When [chunk] returns chunks that are not [block]s, they come from
    the top-level nodes of the parse, in order: each carries the text and
    the rows of a node; every declaration node has its chunk, tagged
    [class] when the node type contains [class] and [function] otherwise;
    a chunk tagged [other] is longer than 50 code units. *)
Theorem chunk_tree_chunks (fuel : nat) (filePath source : jstring)
    (this this' : TreeSitterChunker Language) (cs : list Chunk) (c0 : Chunk) :
  chunk env fuel filePath source this = Some (Ok cs, this') →
  c0 ∈ cs → type c0 ≠ block →
  ∃ language,
    let children := parse_children env language source in
    (content <$> cs) `sublist_of` (text <$> children)
    ∧ Forall (λ c, (type c = other → 50 < length (content c))
                   ∧ ∃ child, child ∈ children
                       ∧ content c = text child
                       ∧ startLine c = startPosition_row child
                       ∧ endLine c = endPosition_row child) cs
    ∧ ∀ child, child ∈ children → is_declaration (node_type child) = true →
        ∃ c, c ∈ cs ∧ content c = text child
             ∧ type c = (if includes (js "class") (node_type child)
                         then class else function).
Proof.
  intros [->|(Hne & language & ->)]%chunk_result_cases Hin Hkind.
  - exfalso. apply Hkind.
    pose proof (fallbackChunk_blocks source) as Hall.
    rewrite Forall_forall in Hall. by apply Hall.
  - exists language. cbv zeta.
    destruct (visit_children_spec (parse_children env language source) [])
      as (new & -> & Hsub & Hall & Hdecl).
    split; [done|]. split; [|done].
    eapply Forall_impl; [exact Hall|]. cbv beta. by intros c (_ & ? & ?).
Qed.

(** X5.  A grammar that [getLanguage] has returned stays: every later
    request for that language on the instance returns it again, whatever
    the cache directory, the network and the loader have become.  A
    [null] answer is not remembered: the instance is left as it was. *)
Theorem getLanguage_memoizes (fuel : nat) (lang : jstring)
    (this this' : TreeSitterChunker Language) (answer : option Language) :
  getLanguage env fuel lang this = Some (Ok answer, this') →
  match answer with
  | Some language =>
      ∀ (env' : ChunkerEnv Language) (fuel' : nat),
        getLanguage env' fuel' lang this' = Some (Ok (Some language), this')
  | None => this' = this
  end.
Proof.
  unfold getLanguage at 1.
  destruct (languages this !! lang) as [cached|] eqn:Hcached.
  - intros [= <- <-]. intros env' fuel'. unfold getLanguage. by rewrite Hcached.
  - assert (Hload : load_language env lang (grammar_path env lang) this
                    = (Ok answer, this') →
             match answer with
             | Some language =>
                 ∀ (env' : ChunkerEnv Language) (fuel' : nat),
                   getLanguage env' fuel' lang this'
                   = Some (Ok (Some language), this')
             | None => this' = this
             end).
    { unfold load_language.
      destruct (language_load env (grammar_path env lang)) as [l|].
      - intros [= <- <-]. intros env' fuel'. unfold getLanguage.
        cbn [languages]. by rewrite lookup_insert_eq.
      - by intros [= <- <-]. }
    destruct (negb (wasm_exists env (grammar_path env lang))).
    + destruct (GRAMMAR_URLS lang).
      * destruct (downloadFile env fuel _ _) as [[]|]; [|done|done].
        intros [= Heq]. by apply Hload.
      * by intros [= <- <-].
    + intros [= Heq]. by apply Hload.
Qed.

(** X6.  [downloadFile] follows redirections: after [n] of them it goes on
    as a download of the last location.  Any other response resolves the
    promise, whatever its status code, and a network error rejects it. *)
Theorem downloadFile_follows_redirects (url final : option jstring) (n : nat)
    (dest : jstring) (fuel : nat) :
  redirects env url n final →
  downloadFile env (n + fuel) url dest = downloadFile env fuel final dest
  ∧ downloadFile env (n + S fuel) url dest
    = match https_get env final with
      | NetError => Some Rejected
      | Response statusCode location =>
          if is_redirect statusCode
          then downloadFile env fuel location dest
          else Some Resolved
      end.
Proof.
  intros Hred.
  assert (Hgo : ∀ fuel, downloadFile env (n + fuel) url dest
                        = downloadFile env fuel final dest).
  { induction Hred as [url | url code loc n final Hget Hcode _ IH]; intros f.
    - done.
    - cbn [Nat.add downloadFile]. rewrite Hget.
      unfold is_redirect in Hcode. rewrite Hcode. apply IH. }
  split; [apply Hgo|]. rewrite Hgo. cbn [downloadFile].
  by destruct (https_get env final).
Qed.

(** X7.  Redirections are followed without bound: when the release URL
    of a grammar only ever leads to further redirections, the download
    never settles, and neither does a [chunk] that waits for it. *)
Theorem downloadFile_endless_redirects (endless : option jstring → Prop)
    (filePath source : jstring) (this : TreeSitterChunker Language)
    (lang address : jstring) :
  (∀ u, endless u → ∃ statusCode location,
          https_get env u = Response statusCode location
          ∧ is_redirect statusCode = true ∧ endless location) →
  endless (Some address) →
  runtime_ready env this →
  parser (after_init env this) = Some TheParser →
  language_of_ext (file_ext env filePath) = lang →
  languages (after_init env this) !! lang = None →
  wasm_exists env (grammar_path env lang) = false →
  GRAMMAR_URLS lang = Some address →
  (∀ fuel dest, downloadFile env fuel (Some address) dest = None)
  ∧ ∀ fuel, chunk env fuel filePath source this = None.
Proof.
  intros Hclosed Hurl Hready Hparser Hlang Hnone Hcache Haddr.
  assert (Hnever : ∀ fuel dest u, endless u →
            downloadFile env fuel u dest = None).
  { intros fuel dest. induction fuel as [|fuel IH]; intros u Hu; [done|].
    destruct (Hclosed u Hu) as (code & loc & Hget & Hcode & Hloc).
    cbn [downloadFile]. rewrite Hget. unfold is_redirect in Hcode.
    rewrite Hcode. by apply IH. }
  split; [intros fuel dest; by apply Hnever|].
  intros fuel.
  unfold chunk. rewrite (after_init_ready env this Hready), Hparser, Hlang.
  destruct lang as [|c lang]; [done|]. cbn [truthy negb].
  unfold getLanguage. rewrite Hnone, Hcache, Haddr. cbn [negb].
  by rewrite Hnever.
Qed.

Lemma init_frame (this : TreeSitterChunker Language) :
  languages (init env this).2 = languages this
  ∧ (initialized this = true → (init env this).2 = this)
  ∧ ((init env this).1 = Ok () → initialized (init env this).2 = true).
Proof.
  unfold init. destruct (initialized this) eqn:Hinit; [done|].
  destruct (runtime_init env); cbn [negb]; [|done].
  destruct (grammars_dir_ready env); cbn [negb]; done.
Qed.

Lemma getLanguage_frame (fuel : nat) (lang : jstring)
    (this this' : TreeSitterChunker Language) (r : result (option Language)) :
  getLanguage env fuel lang this = Some (r, this') →
  this' = this
  ∨ (languages this !! lang = None
     ∧ ∃ l, language_load env (grammar_path env lang) = Some l
         ∧ this' = {| parser := parser this;
                      languages := <[lang := l]> (languages this);
                      initialized := initialized this |}).
Proof.
  unfold getLanguage.
  destruct (languages this !! lang) as [cached|] eqn:Hc;
    [intros [= _ <-]; by left|].
  assert (Hload : load_language env lang (grammar_path env lang) this = (r, this') →
            this' = this
            ∨ (None = None (A := Language)
               ∧ ∃ l, language_load env (grammar_path env lang) = Some l
                   ∧ this' = {| parser := parser this;
                                languages := <[lang := l]> (languages this);
                                initialized := initialized this |})).
  { unfold load_language.
    destruct (language_load env (grammar_path env lang)) as [l|].
    - intros [= _ <-]. right. split; [done|]. by exists l.
    - intros [= _ <-]. by left. }
  destruct (negb (wasm_exists env (grammar_path env lang))).
  - destruct (GRAMMAR_URLS lang); [|intros [= _ <-]; by left].
    destruct (downloadFile env fuel _ _) as [[]|]; [|intros [= _ <-]; by left|done].
    intros [= Heq]. by apply Hload.
  - intros [= Heq]. by apply Hload.
Qed.

(** X8.  What [chunk] does to the instance.  It never drops or replaces
    a cached grammar; the only grammar it can add is the one its loader
    returns for the language of the file's extension; and on an instance
    that is initialised it leaves the parser and the flag as they are. *)
Theorem chunk_keeps_grammars (fuel : nat) (filePath source : jstring)
    (this this' : TreeSitterChunker Language) (r : result (list Chunk)) :
  chunk env fuel filePath source this = Some (r, this') →
  languages this ⊆ languages this'
  ∧ (∀ lang l, languages this' !! lang = Some l → languages this !! lang = None →
       lang = language_of_ext (file_ext env filePath)
       ∧ language_load env (grammar_path env lang) = Some l)
  ∧ (initialized this = true →
       initialized this' = true ∧ parser this' = parser this).
Proof.
  unfold chunk.
  assert (Hinit : ∃ r1 this1,
            (if negb (initialized this) then init env this else (Ok (), this))
            = (r1, this1)
            ∧ languages this1 = languages this
            ∧ (initialized this = true → this1 = this)).
  { destruct (init_frame this) as (Hl & Hi & _).
    destruct (initialized this) eqn:E; cbn [negb].
    - by exists (Ok ()), this.
    - destruct (init env this) as [r1 this1]. by exists r1, this1. }
  destruct Hinit as (r1 & this1 & -> & Hlang & Hsame).
  assert (Hstay : ∀ r0, Some (r0, this1) = Some (r, this') →
            languages this ⊆ languages this'
            ∧ (∀ lang l, languages this' !! lang = Some l →
                 languages this !! lang = None →
                 lang = language_of_ext (file_ext env filePath)
                 ∧ language_load env (grammar_path env lang) = Some l)
            ∧ (initialized this = true →
                 initialized this' = true ∧ parser this' = parser this)).
  { intros r0 [= _ <-]. rewrite Hlang. split; [done|]. split.
    - intros lang l H1 H2. congruence.
    - intros Hi. by rewrite (Hsame Hi). }
  destruct r1 as [[]|]; [|apply Hstay].
  destruct (parser this1); [|apply Hstay].
  destruct (negb (truthy _)); [apply Hstay|].
  destruct (getLanguage env fuel _ this1) as [[r2 this2]|] eqn:Hget; [|done].
  assert (Hout : Some (r, this') = Some (r, this') → this' = this2 →
            languages this ⊆ languages this'
            ∧ (∀ lang l, languages this' !! lang = Some l →
                 languages this !! lang = None →
                 lang = language_of_ext (file_ext env filePath)
                 ∧ language_load env (grammar_path env lang) = Some l)
            ∧ (initialized this = true →
                 initialized this' = true ∧ parser this' = parser this)).
  { intros _ ->.
    apply getLanguage_frame in Hget as [->|(Hnone & l & Hload & ->)].
    - by apply (Hstay r).
    - cbn [languages initialized parser]. rewrite Hlang in *. split; [|split].
      + by apply insert_subseteq.
      + intros lang l' H1 H2.
        destruct (decide (lang = language_of_ext (file_ext env filePath)))
          as [->|Hne].
        * rewrite lookup_insert_eq in H1. by injection H1 as <-.
        * rewrite lookup_insert_ne in H1 by done. congruence.
      + intros Hi. by rewrite (Hsame Hi). }
  destruct r2 as [[language|]|].
  - destruct (length _ =? 0); intros [= _ <-]; by apply Hout.
  - intros [= _ <-]; by apply Hout.
  - intros [= _ <-]; by apply Hout.
Qed.

(** X9.  [chunk] returns chunks only from an initialised instance that
    holds a parser: on an instance that was never initialised without a
    parser, the branch for a missing parser is never taken, and a runtime
    that does not start, or a grammar directory that cannot be made, makes
    [chunk] reject for every file instead of falling back. *)
Theorem chunk_needs_parser (fuel : nat) (filePath source : jstring)
    (this this' : TreeSitterChunker Language) (cs : list Chunk) :
  (initialized this = true → parser this = Some TheParser) →
  chunk env fuel filePath source this = Some (Ok cs, this') →
  initialized this' = true
  ∧ parser this' = Some TheParser
  ∧ (initialized this = true
     ∨ (runtime_init env = true ∧ grammars_dir_ready env = true)).
Proof.
  intros Hwf. unfold chunk.
  assert (Hbody : ∀ this1 : TreeSitterChunker Language,
            initialized this1 = true → parser this1 = Some TheParser →
            match parser this1 with
            | None => Some (Ok (fallbackChunk source), this1)
            | Some _ =>
                let ext := file_ext env filePath in
                let lang := language_of_ext ext in
                if negb (truthy lang) then Some (Ok (fallbackChunk source), this1)
                else
                  match getLanguage env fuel lang this1 with
                  | None => None
                  | Some (Throw, this2) => Some (Throw, this2)
                  | Some (Ok None, this2) =>
                      Some (Ok (fallbackChunk source), this2)
                  | Some (Ok (Some language), this2) =>
                      let children := parse_children env language source in
                      let chunks := foldl visit_child [] children in
                      if length chunks =? 0
                      then Some (Ok (fallbackChunk source), this2)
                      else Some (Ok chunks, this2)
                  end
            end = Some (Ok cs, this') →
            initialized this' = true ∧ parser this' = Some TheParser).
  { intros this1 Hi Hp. rewrite Hp. cbv zeta.
    destruct (negb (truthy _)); [by intros [= _ <-]|].
    destruct (getLanguage env fuel _ this1) as [[r2 this2]|] eqn:Hget; [|done].
    assert (Hthis2 : initialized this2 = true ∧ parser this2 = Some TheParser).
    { apply getLanguage_frame in Hget as [->|(_ & l & _ & ->)]; done. }
    destruct r2 as [[language|]|]; [|by intros [= _ <-]|done].
    destruct (length _ =? 0); by intros [= _ <-]. }
  destruct (initialized this) eqn:Hi; cbn [negb].
  - intros Hrun. destruct (Hbody this Hi (Hwf eq_refl) Hrun) as [? ?]. auto.
  - unfold init. rewrite Hi.
    destruct (runtime_init env); cbn [negb]; [|done].
    destruct (grammars_dir_ready env); cbn [negb]; [|done].
    intros Hrun. apply Hbody in Hrun as [? ?]; auto.
Qed.

End ChunkerMore.

Lemma chunk_empty_or_uniform_witness :
  (foldl visit_child [] module_nodes = [] → blank module_source = true)
  ∧ (Forall (λ c, type c = block) (foldl visit_child [] module_nodes)
     ∨ Forall (λ c, type c ≠ block) (foldl visit_child [] module_nodes)).
Proof.
  apply (chunk_empty_or_uniform parsing_env 1 (js "/repo/src/shapes.ts")
           module_source new_TreeSitterChunker
           {| parser := Some TheParser;
              languages := {[ js "typescript" := () ]};
              initialized := true |}).
  reflexivity.
Defined.

Lemma chunk_tree_chunks_witness :
  ∃ language : unit,
    let children := parse_children parsing_env language module_source in
    (content <$> foldl visit_child [] module_nodes) `sublist_of` (text <$> children)
    ∧ Forall (λ c, (type c = other → 50 < length (content c))
                   ∧ ∃ child, child ∈ children
                       ∧ content c = text child
                       ∧ startLine c = startPosition_row child
                       ∧ endLine c = endPosition_row child)
             (foldl visit_child [] module_nodes)
    ∧ ∀ child, child ∈ children → is_declaration (node_type child) = true →
        ∃ c, c ∈ foldl visit_child [] module_nodes ∧ content c = text child
             ∧ type c = (if includes (js "class") (node_type child)
                         then class else function).
Proof.
  apply (chunk_tree_chunks parsing_env 1 (js "/repo/src/shapes.ts")
           module_source new_TreeSitterChunker
           {| parser := Some TheParser;
              languages := {[ js "typescript" := () ]};
              initialized := true |}
           (foldl visit_child [] module_nodes)
           {| content := js "class Circle { }"; startLine := 2; endLine := 2;
              type := class |}).
  - reflexivity.
  - vm_compute. right. left.
  - discriminate.
Defined.

Lemma getLanguage_memoizes_witness :
  getLanguage offline_env 0 (js "typescript")
    {| parser := Some TheParser;
       languages := {[ js "typescript" := () ]};
       initialized := true |}
  = Some (Ok (Some ()),
          {| parser := Some TheParser;
             languages := {[ js "typescript" := () ]};
             initialized := true |}).
Proof.
  exact (getLanguage_memoizes redirecting_env 2 (js "typescript")
           {| parser := Some TheParser; languages := ∅; initialized := true |}
           {| parser := Some TheParser;
              languages := {[ js "typescript" := () ]};
              initialized := true |}
           (Some ()) eq_refl offline_env 0).
Defined.

Lemma downloadFile_follows_redirects_witness :
  downloadFile redirecting_env (1 + 1) (Some typescript_url) (js "/tmp/ts.wasm")
  = downloadFile redirecting_env 1 (Some storage_url) (js "/tmp/ts.wasm")
  ∧ downloadFile redirecting_env (1 + 2) (Some typescript_url) (js "/tmp/ts.wasm")
    = match https_get redirecting_env (Some storage_url) with
      | NetError => Some Rejected
      | Response statusCode location =>
          if is_redirect statusCode
          then downloadFile redirecting_env 1 location (js "/tmp/ts.wasm")
          else Some Resolved
      end.
Proof.
  apply (downloadFile_follows_redirects redirecting_env).
  eapply redirects_step; [reflexivity | reflexivity | apply redirects_none].
Defined.

Lemma downloadFile_endless_redirects_witness :
  (∀ fuel dest, downloadFile looping_env fuel (Some typescript_url) dest = None)
  ∧ ∀ fuel, chunk looping_env fuel (js "/repo/src/main.ts") (js "let x = 1;")
              new_TreeSitterChunker = None.
Proof.
  apply (downloadFile_endless_redirects looping_env (λ _, True)
           (js "/repo/src/main.ts") (js "let x = 1;") new_TreeSitterChunker
           (js "typescript") typescript_url).
  - intros u _. exists 301, u. repeat split.
  - exact I.
  - right. split; reflexivity.
  - reflexivity.
  - reflexivity.
  - reflexivity.
  - reflexivity.
  - reflexivity.
Defined.

Lemma chunk_keeps_grammars_witness :
  languages new_TreeSitterChunker
  ⊆ languages {| parser := Some TheParser;
                 languages := {[ js "typescript" := () ]};
                 initialized := true |}
  ∧ (∀ lang l,
       languages {| parser := Some TheParser;
                    languages := {[ js "typescript" := () ]};
                    initialized := true |} !! lang = Some l →
       languages (new_TreeSitterChunker (Language := unit)) !! lang = None →
       lang = language_of_ext (file_ext parsing_env (js "/repo/src/shapes.ts"))
       ∧ language_load parsing_env (grammar_path parsing_env lang) = Some l)
  ∧ (initialized (new_TreeSitterChunker (Language := unit)) = true →
       initialized {| parser := Some TheParser;
                      languages := {[ js "typescript" := () ]};
                      initialized := true |} = true
       ∧ parser {| parser := Some TheParser;
                   languages := {[ js "typescript" := () ]};
                   initialized := true |}
         = parser (new_TreeSitterChunker (Language := unit))).
Proof.
  apply (chunk_keeps_grammars parsing_env 1 (js "/repo/src/shapes.ts")
           module_source new_TreeSitterChunker
           {| parser := Some TheParser;
              languages := {[ js "typescript" := () ]};
              initialized := true |}
           (Ok (foldl visit_child [] module_nodes))).
  reflexivity.
Defined.

Lemma chunk_needs_parser_witness :
  initialized {| parser := Some TheParser;
                 languages := {[ js "typescript" := () ]};
                 initialized := true |} = true
  ∧ parser {| parser := Some TheParser;
              languages := {[ js "typescript" := () ]};
              initialized := true |} = Some TheParser
  ∧ (initialized (new_TreeSitterChunker (Language := unit)) = true
     ∨ (runtime_init parsing_env = true ∧ grammars_dir_ready parsing_env = true)).
Proof.
  apply (chunk_needs_parser parsing_env 1 (js "/repo/src/shapes.ts")
           module_source new_TreeSitterChunker
           {| parser := Some TheParser;
              languages := {[ js "typescript" := () ]};
              initialized := true |}
           (foldl visit_child [] module_nodes)).
  - discriminate.
  - reflexivity.
Defined.

(** ** [NodeGit] *)

Section NodeGitFacts.
Context `{IgnoreEngine Ig}.
Variable cwd : jstring.

(** X10.  [isGitRepository] asks [git] once per resolved directory: the
    first answer, positive or negative, is given again for every
    directory that resolves to the same path, whatever [git] would say by
    then, and the instance is left as it is. *)
Theorem isGitRepository_memoizes (git : GitTool) (dir : jstring)
    (this this' : NodeGit Ig) (answer : bool) :
  isGitRepository git cwd dir this = (answer, this') →
  ∀ (git' : GitTool) (dir' : jstring),
    path_resolve_string cwd dir' = path_resolve_string cwd dir →
    isGitRepository git' cwd dir' this' = (answer, this').
Proof.
  unfold isGitRepository at 1.
  destruct (gitRepoCache this !! path_resolve_string cwd dir) as [cached|] eqn:Hc.
  - intros [= <- <-] git' dir' Hsame. unfold isGitRepository.
    by rewrite Hsame, Hc.
  - intros [= <- <-] git' dir' Hsame. unfold isGitRepository.
    cbn [gitRepoCache]. by rewrite Hsame, lookup_insert_eq.
Qed.

(** X11.  [getRepositoryRoot] remembers its first answer for a resolved
    directory, a [null] as well as a path: a directory that was outside
    every repository when first asked about stays without root. *)
Theorem getRepositoryRoot_memoizes (git : GitTool) (dir : jstring)
    (this this' : NodeGit Ig) (answer : option jstring) :
  getRepositoryRoot git cwd dir this = (answer, this') →
  ∀ (git' : GitTool) (dir' : jstring),
    path_resolve_string cwd dir' = path_resolve_string cwd dir →
    getRepositoryRoot git' cwd dir' this' = (answer, this').
Proof.
  unfold getRepositoryRoot at 1.
  destruct (gitRootCache this !! path_resolve_string cwd dir) as [cached|] eqn:Hc.
  - intros [= <- <-] git' dir' Hsame. unfold getRepositoryRoot.
    by rewrite Hsame, Hc.
  - intros [= <- <-] git' dir' Hsame. unfold getRepositoryRoot.
    cbn [gitRootCache]. by rewrite Hsame, lookup_insert_eq.
Qed.

(** X12.  [getRemoteUrl] remembers its first answer for a resolved
    directory, a [null] as well as a URL, and the three lookups do not
    disturb each other: the answer survives calls of [isGitRepository] and
    [getRepositoryRoot] on the instance. *)
Theorem getRemoteUrl_memoizes (git : GitTool) (dir : jstring)
    (this this' : NodeGit Ig) (answer : option jstring) :
  getRemoteUrl git cwd dir this = (answer, this') →
  ∀ (git1 git2 git' : GitTool) (dir1 dir2 dir' : jstring),
    path_resolve_string cwd dir' = path_resolve_string cwd dir →
    let this1 := (isGitRepository git1 cwd dir1 this').2 in
    let this2 := (getRepositoryRoot git2 cwd dir2 this1).2 in
    getRemoteUrl git' cwd dir' this2 = (answer, this2).
Proof.
  intros Hcall git1 git2 git' dir1 dir2 dir' Hsame this1 this2.
  assert (Hremote : gitRemoteCache this2 = gitRemoteCache this').
  { unfold this2, this1, getRepositoryRoot, isGitRepository.
    by repeat case_match. }
  assert (Hc : gitRemoteCache this' !! path_resolve_string cwd dir = Some answer).
  { revert Hcall. unfold getRemoteUrl.
    destruct (gitRemoteCache this !! path_resolve_string cwd dir)
      as [cached|] eqn:Hc.
    - by intros [= <- <-].
    - intros [= <- <-]. cbn [gitRemoteCache]. by rewrite lookup_insert_eq. }
  unfold getRemoteUrl. by rewrite Hremote, Hsame, Hc.
Qed.

(** X13.  [getGitIgnoreFilter] decides by the modification time alone.  A
    call that follows another for the same resolved root returns the
    earlier filter when the ignore file shows the same modification time,
    even if its content is different by then, and otherwise a filter built
    from the present content.  A root whose ignore file cannot be probed
    counts as modification time 0. *)
Theorem getGitIgnoreFilter_by_mtime (fs fs' : IgnoreFs) (repoRoot repoRoot' : jstring)
    (this this' : NodeGit Ig) (filter : GitIgnoreFilter Ig) :
  getGitIgnoreFilter cwd fs repoRoot this = (filter, this') →
  path_resolve_string cwd repoRoot' = path_resolve_string cwd repoRoot →
  (getGitIgnoreFilter cwd fs' repoRoot' this').1
  = if decide (current_mtime fs' repoRoot' = current_mtime fs repoRoot)
    then filter
    else new_GitIgnoreFilter (getGitIgnoreContent fs' repoRoot').
Proof.
  intros Hcall Hsame.
  assert (Hc : gitIgnoreCache this' !! path_resolve_string cwd repoRoot
               = Some (filter, current_mtime fs repoRoot)).
  { revert Hcall. unfold getGitIgnoreFilter.
    destruct (gitIgnoreCache this !! path_resolve_string cwd repoRoot)
      as [[f m]|] eqn:Hc.
    - cbn [fst snd]. case_bool_decide as Hm; cbn [negb].
      + intros [= <- <-]. by rewrite Hc, Hm.
      + intros [= <- <-]. cbn [gitIgnoreCache]. by rewrite lookup_insert_eq.
    - intros [= <- <-]. cbn [gitIgnoreCache]. by rewrite lookup_insert_eq. }
  unfold getGitIgnoreFilter. rewrite Hsame, Hc. cbn [fst snd].
  case_bool_decide as Hm; cbn [negb].
  - rewrite decide_True by done. done.
  - rewrite decide_False by done. cbn [fst]. unfold fresh_filter.
    unfold new_GitIgnoreFilter. by repeat case_match.
Qed.

End NodeGitFacts.

Lemma isGitRepository_memoizes_witness :
  isGitRepository (Ig := list jstring) git_after (js "/home/user") (js "/tmp/")
    {| gitRepoCache := {[ js "/tmp" := false ]}; gitIgnoreCache := ∅;
       gitRootCache := ∅; gitRemoteCache := ∅ |}
  = (false, {| gitRepoCache := {[ js "/tmp" := false ]}; gitIgnoreCache := ∅;
               gitRootCache := ∅; gitRemoteCache := ∅ |}).
Proof.
  apply (isGitRepository_memoizes (js "/home/user") git_before (js "/tmp")
           new_NodeGit).
  - reflexivity.
  - reflexivity.
Defined.

Lemma getRepositoryRoot_memoizes_witness :
  getRepositoryRoot (Ig := list jstring) git_after (js "/home/user") (js "/repo/")
    {| gitRepoCache := ∅; gitIgnoreCache := ∅;
       gitRootCache := {[ js "/repo" := Some (js "/repo") ]};
       gitRemoteCache := ∅ |}
  = (Some (js "/repo"),
     {| gitRepoCache := ∅; gitIgnoreCache := ∅;
        gitRootCache := {[ js "/repo" := Some (js "/repo") ]};
        gitRemoteCache := ∅ |}).
Proof.
  apply (getRepositoryRoot_memoizes (js "/home/user") git_before
           (js "/repo/src/..") new_NodeGit).
  - reflexivity.
  - reflexivity.
Defined.

Lemma getRemoteUrl_memoizes_witness :
  let this1 := (isGitRepository (Ig := list jstring) git_after (js "/home/user")
                  (js "/repo")
                  {| gitRepoCache := ∅; gitIgnoreCache := ∅; gitRootCache := ∅;
                     gitRemoteCache :=
                       {[ js "/repo" := Some (js "git@example.org:team/repo.git") ]} |}).2 in
  let this2 := (getRepositoryRoot git_after (js "/home/user") (js "/repo") this1).2 in
  getRemoteUrl git_after (js "/home/user") (js "/repo/") this2
  = (Some (js "git@example.org:team/repo.git"), this2).
Proof.
  apply (getRemoteUrl_memoizes (js "/home/user") git_before (js "/repo")
           new_NodeGit).
  - reflexivity.
  - reflexivity.
Defined.

Lemma getGitIgnoreFilter_by_mtime_witness :
  (getGitIgnoreFilter (js "/home/user") fs_after (js "/repo/")
     {| gitRepoCache := ∅;
        gitIgnoreCache := {[ js "/repo" := ({| ignoreInstance := [js "dist"] |},
                                            1700000000000%Z) ]};
        gitRootCache := ∅; gitRemoteCache := ∅ |}).1
  = if decide (current_mtime fs_after (js "/repo/")
               = current_mtime fs_before (js "/repo"))
    then {| ignoreInstance := [js "dist"] |}
    else new_GitIgnoreFilter (getGitIgnoreContent fs_after (js "/repo/")).
Proof.
  apply (getGitIgnoreFilter_by_mtime (js "/home/user") fs_before fs_after
           (js "/repo") (js "/repo/") new_NodeGit).
  - reflexivity.
  - reflexivity.
Defined.

(** ** The embedding worker *)

Section WorkerFacts.
Context {A : Type}.

Lemma drop_concat_rows (h i : nat) (rows : list (list A)) :
  Forall (λ r, length r = h) rows →
  drop (i * h) (concat rows) = concat (drop i rows).
Proof.
  revert rows. induction i as [|i IH]; intros rows Hrows; [done|].
  destruct Hrows as [|r rows Hr Hrows]; [cbn [concat]; by rewrite !drop_nil|].
  cbn [concat drop Nat.mul].
  rewrite drop_app_add' by done. by apply IH.
Qed.

Lemma embed_vectors_rows (h : nat) (rows : list (list A)) :
  Forall (λ r, length r = h) rows →
  embed_vectors (Some [length rows; h]) (concat rows)
  = (λ i, take 128 (concat (drop i rows))) <$> seq 0 (length rows).
Proof.
  intros Hrows. unfold embed_vectors. cbn [default].
  apply list_fmap_ext. intros _ i _. unfold slice.
  rewrite drop_concat_rows by done. f_equal. lia.
Qed.

Lemma take_rows (h : nat) (rows : list (list A)) :
  Forall (λ r, length r = h) rows → 128 ≤ h →
  (λ i, take 128 (concat (drop i rows))) <$> seq 0 (length rows)
  = take 128 <$> rows.
Proof.
  intros Hrows Hh. induction Hrows as [|r rows Hr Hrows IH]; [done|].
  cbn [length seq fmap list_fmap]. f_equal.
  - cbn [drop concat]. rewrite take_app_le by lia. done.
  - rewrite <- fmap_S_seq, <- list_fmap_compose. exact IH.
Qed.

Variable pipe : list jstring → result (option (list nat) * list A).

(** X14.  When the model returns a batch of rows of one width, [embed]
    returns one vector per row, in order: the 128 entries of the data
    from the start of the row on.  For a width of at least 128 that is
    the first 128 components of each row; for a narrower model a vector
    runs on into the rows that follow. *)
Theorem embed_rows (texts : list jstring) (h : nat) (rows : list (list A)) :
  pipe texts = Ok (Some [length rows; h], concat rows) →
  Forall (λ r, length r = h) rows →
  embed pipe texts
  = Ok ((λ i, take 128 (concat (drop i rows))) <$> seq 0 (length rows))
  ∧ (128 ≤ h → embed pipe texts = Ok (take 128 <$> rows)).
Proof.
  intros Hpipe Hrows. unfold embed. rewrite Hpipe.
  rewrite embed_vectors_rows by done. split; [done|].
  intros Hh. by rewrite (take_rows h).
Qed.

(** X15.  The worker answers [No text provided], without running the
    model, exactly for a message whose [texts] is an empty array, or
    that has no [texts] and no non-empty [text].  An empty [texts] array
    thus overrides a [text] sent along with it. *)
Theorem on_message_no_text (message : Message) :
  on_message pipe message
  = ReplyError (msg_id message) (Some (js "No text provided"))
  ↔ (msg_texts message = Some []
     ∨ (msg_texts message = None ∧ truthy_opt (msg_text message) = false)).
Proof.
  unfold on_message, message_inputs.
  destruct message as [id text texts]. cbn [msg_id msg_text msg_texts].
  destruct texts as [[|t ts]|].
  - split; [by left | done].
  - cbn [length Nat.eqb]. split.
    + destruct (embed pipe (t :: ts)); [by case_match | done].
    + by intros [|[]].
  - destruct text as [[|c t]|]; cbn [truthy_opt truthy length Nat.eqb].
    + split; [by right | done].
    + split.
      * destruct (embed pipe [c :: t]); [by case_match | done].
      * by intros [|[]].
    + split; [by right | done].
Qed.

(** X16.  A request with a single [text] and no [texts] is answered with
    one [vector]: the first 128 components of what the model returns for
    that text, whether the output carries its dimensions or not. *)
Theorem on_message_single_text (message : Message) (t : jstring)
    (dims : option (list nat)) (row : list A) :
  msg_texts message = None →
  msg_text message = Some t →
  t ≠ [] →
  pipe [t] = Ok (dims, row) →
  dims = None ∨ dims = Some [1; length row] →
  on_message pipe message = ReplyVector (msg_id message) (Some (take 128 row)).
Proof.
  intros Htexts Htext Ht Hpipe Hdims.
  unfold on_message, message_inputs, embed. rewrite Htexts, Htext.
  destruct t as [|c t]; [done|]. cbn [truthy truthy_opt length Nat.eqb].
  rewrite Hpipe. rewrite bool_decide_false by (by intros [? ?]).
  cbn [andb negb]. f_equal.
  assert (Hv : embed_vectors dims row = [take 128 row]).
  { unfold embed_vectors, slice.
    destruct Hdims as [-> | ->]; done. }
  by rewrite Hv.
Qed.

End WorkerFacts.

Lemma embed_rows_witness :
  embed toy_pipe [js "a"; js "bc"]
  = Ok ((λ i, take 128 (concat (drop i [toy_row (js "a"); toy_row (js "bc")])))
          <$> seq 0 (length [toy_row (js "a"); toy_row (js "bc")]))
  ∧ (128 ≤ 130 → embed toy_pipe [js "a"; js "bc"]
                 = Ok (take 128 <$> [toy_row (js "a"); toy_row (js "bc")])).
Proof.
  apply (embed_rows toy_pipe [js "a"; js "bc"] 130
           [toy_row (js "a"); toy_row (js "bc")]).
  - reflexivity.
  - repeat constructor.
Defined.

Lemma on_message_single_text_witness :
  on_message toy_pipe
    {| msg_id := js "7"; msg_text := Some (js "bc"); msg_texts := None |}
  = ReplyVector (msg_id {| msg_id := js "7"; msg_text := Some (js "bc");
                           msg_texts := None |})
                (Some (take 128 (concat [toy_row (js "bc")]))).
Proof.
  apply (on_message_single_text toy_pipe
           {| msg_id := js "7"; msg_text := Some (js "bc"); msg_texts := None |}
           (js "bc") (Some [1; 130]) (concat [toy_row (js "bc")])).
  - reflexivity.
  - reflexivity.
  - discriminate.
  - reflexivity.
  - right. reflexivity.
Defined.

(** ** The sync engine *)

Section SyncMore.
Context {W : Type} (computeBufferHash : Buffer → jstring) (client : Mixedbread W).





Lemma listing_loop_rejects (w : W) (store : jstring) (after : option jstring)
    (n : nat) :
  listing_rejects client w store after n →
  ∀ fuel acc, n ≤ fuel →
    listStoreFileHashes_loop client fuel w store acc after = Some Throw.
Proof.
  induction 1 as [after Hlist | after resp n Hlist Hnext _ IH];
    intros fuel acc Hfuel.
  - destruct fuel as [|fuel]; [lia|]. cbn [listStoreFileHashes_loop].
    by rewrite Hlist.
  - destruct fuel as [|fuel]; [lia|]. cbn [listStoreFileHashes_loop].
    rewrite Hlist. cbv zeta. rewrite Hnext. apply IH. lia.
Qed.

(** X19.  A listing request that rejects, on whichever page, makes
    [listStoreFileHashes] reject, the pages received before it
    notwithstanding; [initialSync] then rejects as well, before any file
    is read or sent. *)
Theorem initialSync_listing_rejects (fuel : nat) (env : RepoEnv)
    (store repoRoot : jstring) (w : W) (n : nat) :
  listing_rejects client w store None n →
  n ≤ fuel →
  listStoreFileHashes client fuel w store = Some Throw
  ∧ initialSync computeBufferHash client fuel env store repoRoot w = Some Throw.
Proof.
  intros Hrej Hfuel.
  assert (Hlist : listStoreFileHashes client fuel w store = Some Throw).
  { unfold listStoreFileHashes. by eapply listing_loop_rejects. }
  split; [done|]. unfold initialSync. by rewrite Hlist.
Qed.

(** X20.  The listing loop trusts the cursors it is given: against a
    store whose pages keep announcing a further page with a cursor that
    leads to another such page, [listStoreFileHashes] never returns, and
    neither does [initialSync]. *)
Theorem listStoreFileHashes_endless (cursors : option jstring → Prop)
    (w : W) (store : jstring) :
  (∀ after, cursors after → ∃ resp,
     files_list client w store 100 after = Ok resp
     ∧ truthy_opt (next_after resp) = true
     ∧ cursors (next_after resp)) →
  cursors None →
  ∀ fuel,
    listStoreFileHashes client fuel w store = None
    ∧ ∀ env repoRoot,
        initialSync computeBufferHash client fuel env store repoRoot w = None.
Proof.
  intros Hclosed Hstart fuel.
  assert (Hloop : ∀ fuel acc after, cursors after →
            listStoreFileHashes_loop client fuel w store acc after = None).
  { clear fuel. induction fuel as [|fuel IH]; intros acc after Hafter; [done|].
    destruct (Hclosed after Hafter) as (resp & Hlist & Hnext & Hin).
    cbn [listStoreFileHashes_loop]. rewrite Hlist. cbv zeta. rewrite Hnext.
    by apply IH. }
  assert (Hlist : listStoreFileHashes client fuel w store = None)
    by by apply Hloop.
  split; [done|]. intros env repoRoot. unfold initialSync. by rewrite Hlist.
Qed.

End SyncMore.



Lemma initialSync_listing_rejects_witness :
  listStoreFileHashes failing_client 5 () store_name = Some Throw
  ∧ initialSync toy_hash failing_client 5 (one_file (Ok hi)) store_name
      repo_root ()
    = Some Throw.
Proof.
  apply (initialSync_listing_rejects toy_hash failing_client 5
           (one_file (Ok hi)) store_name repo_root () 2).
  - eapply rejects_later; [reflexivity | reflexivity | ].
    apply rejects_here. reflexivity.
  - lia.
Defined.

(** ** Paths below the root *)

Lemma split_app_sep (sep : N) (a b : jstring) :
  split sep (a ++ sep :: b) = split sep a ++ split sep b.
Proof.
  induction a as [|c a IH]; cbn [app split].
  - by rewrite N.eqb_refl.
  - destruct (c =? sep)%N; [by rewrite IH|]. rewrite IH.
    pose proof (split_not_nil sep a). by destruct (split sep a).
Qed.

Lemma segments_app_slash (a b : jstring) :
  segments (a ++ SLASH :: b) = segments a ++ segments b.
Proof. unfold segments. by rewrite split_app_sep, filter_app. Qed.

Lemma segments_nil : segments [] = [].
Proof. done. Qed.

Lemma segments_cons_slash (p : jstring) : segments (SLASH :: p) = segments p.
Proof. apply (segments_app_slash [] p). Qed.

Lemma segments_no_slash (s : jstring) :
  s ≠ [] → SLASH ∉ s → segments s = [s].
Proof.
  intros Hne Hs. unfold segments. rewrite split_no_sep by done.
  by rewrite filter_cons_True, filter_nil.
Qed.

Lemma segments_join (l : list jstring) :
  Forall normal_segment l → segments (join_with SLASH l) = l.
Proof.
  induction 1 as [|s l (Hne & _ & _ & Hs) Hl IH]; [done|].
  destruct l as [|s' l].
  - by apply segments_no_slash.
  - change (join_with SLASH (s :: s' :: l))
      with (s ++ SLASH :: join_with SLASH (s' :: l)).
    by rewrite segments_app_slash, IH, segments_no_slash.
Qed.

Lemma segments_normalish (p : jstring) :
  Forall (λ s, s ≠ [] ∧ SLASH ∉ s) (segments p).
Proof.
  apply Forall_forall. intros s [Hne Hin]%list_elem_of_filter.
  split; [done|]. by eapply split_pieces_no_sep.
Qed.

Lemma normalize_go_app (b : bool) (xs ys stack : list jstring) :
  normalize_go b stack (xs ++ ys)
  = normalize_go b (reverse (normalize_go b stack xs)) ys.
Proof.
  revert stack. induction xs as [|s xs IH]; intros stack; cbn [app normalize_go].
  - by rewrite reverse_involutive.
  - repeat case_match; apply IH.
Qed.

Lemma normalize_go_normal (b : bool) (l stack : list jstring) :
  Forall normal_segment l → normalize_go b stack l = reverse stack ++ l.
Proof.
  intros Hl. revert stack.
  induction Hl as [|s l (_ & Hdot & Hdots & _) _ IH]; intros stack;
    cbn [normalize_go].
  - by rewrite app_nil_r.
  - rewrite decide_False, decide_False by done.
    by rewrite IH, reverse_cons, <- app_assoc.
Qed.

Lemma normalize_go_keeps_normal (segs stack : list jstring) :
  Forall normal_segment stack →
  Forall (λ s, s ≠ [] ∧ SLASH ∉ s) segs →
  Forall normal_segment (normalize_go false stack segs).
Proof.
  intros Hstack Hsegs. revert stack Hstack.
  induction Hsegs as [|s segs [Hne Hs] _ IH]; intros stack Hstack;
    cbn [normalize_go].
  - by apply Forall_reverse.
  - destruct (decide (s = js ".")); [by apply IH|].
    destruct (decide (s = js "..")).
    + destruct Hstack as [|top stack (_ & _ & Htop & _) Hstack]; [by apply IH|].
      rewrite decide_False by done. by apply IH.
    + apply IH. by constructor.
Qed.

Lemma strip_common_prefix (r l : list jstring) :
  strip_common r (r ++ l) = ([], l).
Proof.
  induction r as [|x r IH]; cbn [app strip_common]; [by destruct l|].
  by rewrite decide_True.
Qed.

Lemma join_with_not_elem (c sep : N) (l : list jstring) :
  c ≠ sep → Forall (λ s, c ∉ s) l → c ∉ join_with sep l.
Proof.
  intros Hc. induction 1 as [|s l Hs Hl IH]; [apply not_elem_of_nil|].
  destruct l as [|s' l]; [done|].
  change (join_with sep (s :: s' :: l)) with (s ++ sep :: join_with sep (s' :: l)).
  rewrite elem_of_app, elem_of_cons. intros [?|[?|?]]; done.
Qed.

Lemma join_with_nonempty (sep : N) (l : list jstring) :
  l ≠ [] → Forall (λ s, s ≠ []) l → join_with sep l ≠ [].
Proof.
  intros Hne Hl. destruct Hl as [|s l Hs Hl]; [done|].
  destruct s as [|c s]; [done|]. by destruct l.
Qed.

Lemma replace_backslashes_id (s : jstring) :
  BACKSLASH ∉ s → replace_backslashes s = s.
Proof.
  unfold replace_backslashes. induction s as [|c s IH]; [done|].
  intros [Hc Hs]%not_elem_of_cons. rewrite fmap_cons, IH by done.
  destruct (N.eqb_spec c BACKSLASH); [done|done].
Qed.

Lemma path_resolve_absolute (cwd root : jstring) :
  isAbsolute root = true →
  path_resolve cwd root = normalize_go false [] (segments root)
  ∧ Forall normal_segment (path_resolve cwd root).
Proof.
  intros Habs. unfold path_resolve. rewrite Habs. split; [done|].
  apply normalize_go_keeps_normal; [done | apply segments_normalish].
Qed.

(** Joining a relative name of plain segments to an absolute root gives a
    path that resolves to the segments of the root followed by those of
    the name. *)
Lemma path_resolve_join (cwd root : jstring) (l : list jstring) :
  isAbsolute root = true → l ≠ [] → Forall normal_segment l →
  path_resolve cwd (path_join root (join_with SLASH l))
  = path_resolve cwd root ++ l.
Proof.
  intros Habs Hne Hl.
  destruct (path_resolve_absolute cwd root Habs) as [Hroot Hnormal].
  set (r := path_resolve cwd root) in *.
  assert (Hrel : join_with SLASH l ≠ []).
  { apply join_with_nonempty; [done|].
    eapply Forall_impl; [exact Hl|]. by intros s (? & _). }
  assert (Hall : Forall normal_segment (r ++ l)) by by apply Forall_app.
  assert (Hbody : normalize_go false []
                    (segments (root ++ SLASH :: join_with SLASH l)) = r ++ l).
  { rewrite segments_app_slash, segments_join by done.
    rewrite normalize_go_app, <- Hroot.
    by rewrite normalize_go_normal, reverse_involutive. }
  unfold path_join.
  destruct root as [|c root]; [done|].
  destruct (join_with SLASH l) as [|c' rel] eqn:Ejoin; [done|].
  cbn [truthy app negb]. cbn [isAbsolute] in Habs |- *. rewrite Habs.
  cbn [negb]. change (c :: root ++ SLASH :: c' :: rel)
    with ((c :: root) ++ SLASH :: c' :: rel). rewrite Hbody.
  assert (Hjoin : join_with SLASH (r ++ l) ≠ []).
  { apply join_with_nonempty; [by destruct r, l|].
    eapply Forall_impl; [exact Hall|]. by intros s (? & _). }
  destruct (join_with SLASH (r ++ l)) as [|c2 body] eqn:Ebody; [done|].
  cbn [truthy negb]. rewrite <- Ebody.
  unfold path_resolve. cbn [app isAbsolute]. rewrite N.eqb_refl.
  rewrite segments_cons_slash.
  assert (Hseg : ∀ trailing : bool,
            segments (join_with SLASH (r ++ l)
                      ++ (if trailing then [SLASH] else []))
            = r ++ l).
  { intros [].
    - by rewrite segments_app_slash, segments_nil, app_nil_r, segments_join.
    - by rewrite app_nil_r, segments_join. }
  rewrite Hseg. by rewrite normalize_go_normal.
Qed.

Section BelowRoot.
Context `{IgnoreEngine Ig}.

(** X21.  A path made of an absolute root and a relative name of plain
    segments, as the file listings build it with [path.join], is matched
    under that relative name: [isIgnored] hands the pattern engine the
    name as it was listed, with a separator appended when the path probes
    as a directory. *)
Theorem isIgnored_below_root (cwd : jstring) (statSync : jstring → StatResult)
    (this : GitIgnoreFilter Ig) (root : jstring) (l : list jstring) :
  isAbsolute root = true →
  l ≠ [] →
  Forall plain_segment l →
  normalizePathForIgnore cwd (path_join root (join_with SLASH l)) root
  = join_with SLASH l
  ∧ isIgnored cwd statSync this (path_join root (join_with SLASH l)) root
    = ignores (ignoreInstance this)
        (if probes_as_directory statSync (path_join root (join_with SLASH l))
         then join_with SLASH l ++ [SLASH] else join_with SLASH l).
Proof.
  intros Habs Hne Hl.
  assert (Hnormal : Forall normal_segment l).
  { eapply Forall_impl; [exact Hl|]. by intros s [? _]. }
  assert (Hnorm : normalizePathForIgnore cwd
                    (path_join root (join_with SLASH l)) root
                  = join_with SLASH l).
  { unfold normalizePathForIgnore, path_relative.
    rewrite path_resolve_join by done. rewrite strip_common_prefix.
    cbn [fmap list_fmap app]. apply replace_backslashes_id.
    apply join_with_not_elem; [done|].
    eapply Forall_impl; [exact Hl|]. by intros s [_ ?]. }
  split; [done|]. unfold isIgnored. rewrite Hnorm.
  assert (Hrel : join_with SLASH l ≠ []).
  { apply join_with_nonempty; [done|].
    eapply Forall_impl; [exact Hnormal|]. by intros s (? & _). }
  destruct (join_with SLASH l) as [|c rel] eqn:Ejoin; [done|].
  cbn [truthy negb]. unfold probes_as_directory. done.
Qed.

End BelowRoot.

Lemma isIgnored_below_root_witness :
  normalizePathForIgnore (js "/home/user")
    (path_join (js "/repo") (join_with SLASH [js "dist"; js "app.js"])) (js "/repo")
  = join_with SLASH [js "dist"; js "app.js"]
  ∧ isIgnored (js "/home/user") (λ _, Stats RegularFile)
      (new_GitIgnoreFilter (Some (js "dist/")))
      (path_join (js "/repo") (join_with SLASH [js "dist"; js "app.js"]))
      (js "/repo")
    = ignores (ignoreInstance (new_GitIgnoreFilter (Some (js "dist/"))))
        (if probes_as_directory (λ _, Stats RegularFile)
              (path_join (js "/repo") (join_with SLASH [js "dist"; js "app.js"]))
         then join_with SLASH [js "dist"; js "app.js"] ++ [SLASH]
         else join_with SLASH [js "dist"; js "app.js"]).
Proof.
  apply (isIgnored_below_root (Ig := list jstring) (js "/home/user")
           (λ _, Stats RegularFile) (new_GitIgnoreFilter (Some (js "dist/")))
           (js "/repo") [js "dist"; js "app.js"]).
  - reflexivity.
  - discriminate.
  - repeat constructor; try discriminate;
      (intros Hin; vm_compute in Hin; by repeat (apply elem_of_cons in Hin as [Hin|Hin];
         [discriminate Hin|]); apply elem_of_nil in Hin).
Defined.

(** ** File listings *)

(** X22.  For a listing of ASCII names [getGitFiles] yields the joined
    path of every non-empty record of the whole output, in order,
    wherever the output was cut into chunks; a last record without its
    terminator is yielded as well. *)
Theorem getGitFiles_ascii_records (dirRoot : jstring) (child : ChildProcess) :
  ascii_only (concat (stdout child)) →
  (getGitFiles dirRoot child).1
  = path_join dirRoot <$>
      filter (λ f, truthy f = true)
        (split NUL (Byte.to_N <$> concat (stdout child))).
Proof.
  intros Hascii. rewrite getGitFiles_yields.
  by rewrite Buffer_toString_concat_ascii, Buffer_toString_ascii.
Qed.

Lemma getGitFiles_ascii_records_witness :
  (getGitFiles (js "/repo") ascii_listing).1
  = path_join (js "/repo") <$>
      filter (λ f, truthy f = true)
        (split NUL (Byte.to_N <$> concat (stdout ascii_listing))).
Proof.
  apply (getGitFiles_ascii_records (js "/repo") ascii_listing).
  repeat constructor.
Defined.

Lemma dedupe_spec (l seen : list jstring) :
  NoDup (dedupe seen l) ∧ ∀ x, x ∈ dedupe seen l ↔ x ∈ l ∧ x ∉ seen.
Proof.
  revert seen. induction l as [|y l IH]; intros seen; cbn [dedupe].
  - split; [constructor|]. intros x. rewrite elem_of_nil. tauto.
  - destruct (decide (y ∈ seen)) as [Hin|Hnotin].
    + destruct (IH seen) as [Hnd Hmem]. split; [done|].
      intros x. rewrite Hmem, elem_of_cons. split; [tauto|].
      intros [[->|?] ?]; [done | tauto].
    + destruct (IH (y :: seen)) as [Hnd Hmem]. split.
      * constructor; [|done]. rewrite Hmem, elem_of_cons. tauto.
      * intros x. rewrite !elem_of_cons, Hmem, elem_of_cons.
        destruct (decide (x = y)) as [->|]; tauto.
Qed.

(** X23.  The candidate files of a run.  [getGitRepoFiles] joins the root
    with each distinct non-empty record of the two listings, a name
    listed twice appearing once; [filterRepoFiles]
    keeps, in order, exactly the paths that probe as regular files and
    that [git check-ignore] does not report, and silently drops a path
    that cannot be probed. *)
Theorem getGitRepoFiles_candidates (env : RepoEnv) (repoRoot : jstring) :
  (∃ rels,
     getGitRepoFiles env repoRoot = path_join repoRoot <$> rels
     ∧ NoDup rels
     ∧ ∀ rel, rel ∈ rels ↔
         rel ≠ []
         ∧ (rel ∈ split NUL (default [] (git_ls_tracked env))
            ∨ rel ∈ split NUL (default [] (git_ls_untracked env))))
  ∧ filterRepoFiles env (getGitRepoFiles env repoRoot)
    `sublist_of` getGitRepoFiles env repoRoot
  ∧ ∀ path, path ∈ filterRepoFiles env (getGitRepoFiles env repoRoot) ↔
      path ∈ getGitRepoFiles env repoRoot
      ∧ statSync env path = Stats RegularFile
      ∧ git_check_ignore env path = false.
Proof.
  split; [|split].
  - unfold getGitRepoFiles. eexists. split; [done|].
    destruct (dedupe_spec
                (filter (λ f, truthy f = true)
                   (split NUL (default [] (git_ls_tracked env)))
                 ++ filter (λ f, truthy f = true)
                      (split NUL (default [] (git_ls_untracked env)))) [])
      as [Hnd Hmem].
    split; [done|]. intros rel.
    rewrite Hmem, elem_of_app, !list_elem_of_filter, elem_of_nil.
    destruct rel; cbn [truthy]; split; intros; try tauto;
      intuition congruence.
  - unfold filterRepoFiles. apply sublist_filter.
  - intros path. unfold filterRepoFiles, keep_repo_file, isIgnoredByGit.
    rewrite list_elem_of_filter.
    destruct (statSync env path) as [|[]]; cbn [stat_isFile negb];
      destruct (git_check_ignore env path); cbn [negb];
      split; intros; intuition congruence.
Qed.

Lemma listStoreFileHashes_endless_witness :
  listStoreFileHashes looping_client 1000 () store_name = None
  ∧ ∀ env repoRoot,
      initialSync toy_hash looping_client 1000 env store_name repoRoot ()
      = None.
Proof.
  apply (listStoreFileHashes_endless toy_hash looping_client
           (λ after, after = None ∨ after = Some (js "/repo/a.txt"))).
  - intros after _. eexists. split; [reflexivity|]. split; [reflexivity|].
    right. reflexivity.
  - left. reflexivity.
Defined.
